(** * Supervisor wrapper (src/server.js): a shallow embedding and its properties

    The wrapper fronts one backend gateway process.  This development embeds
    the parts of [src/server.js] that supervise the process, probe it for
    readiness, run helper commands, resolve the gateway token and restore a
    backup archive, and proves the properties the specification states
    about them.

    Layout: Part I holds the embedding (one module per component of the
    source), Part II the lemmas and theorems. *)

From Stdlib Require Import String Ascii List ZArith NArith Lia Bool.
From stdpp Require Import base option list gmap strings.

Local Open Scope string_scope.
Local Open Scope list_scope.

(* ===================================================================== *)
(** * Part I: the embedding                                               *)
(* ===================================================================== *)

(** ** JavaScript strings

    Strings are byte strings.  [trim] strips the ASCII white space and line
    terminators of ECMAScript ([\t \n \v \f \r] and space); the white space
    beyond U+007F is outside this model. *)
Module Js.

Definition isWhiteSpace (c : ascii) : bool :=
  match N_of_ascii c with
  | 9%N | 10%N | 11%N | 12%N | 13%N | 32%N => true
  | _ => false
  end.

Fixpoint trimStart (s : string) : string :=
  match s with
  | EmptyString => EmptyString
  | String c s' => if isWhiteSpace c then trimStart s' else s
  end.

Fixpoint trimEnd (s : string) : string :=
  match s with
  | EmptyString => EmptyString
  | String c s' =>
      match trimEnd s' with
      | EmptyString => if isWhiteSpace c then EmptyString else String c EmptyString
      | t => String c t
      end
  end.

(** [String.prototype.trim] *)
Definition trim (s : string) : string := trimEnd (trimStart s).

(** A value that is a string or [undefined]; [truthy] is ToBoolean on it and
    [or] is the operator [||]. *)
Definition truthy (v : option string) : bool :=
  match v with
  | Some s => negb (String.eqb s "")
  | None => false
  end.

Definition or (a b : option string) : option string :=
  if truthy a then a else b.

(** [s.startsWith(p)] *)
Fixpoint startsWith (p s : string) : bool :=
  match p, s with
  | EmptyString, _ => true
  | String a p', String b s' => Ascii.eqb a b && startsWith p' s'
  | String _ _, EmptyString => false
  end.

(** [s.includes(p)]: [p] occurs in [s] at some position. *)
Fixpoint includes (p s : string) : bool :=
  startsWith p s ||
  match s with
  | EmptyString => false
  | String _ s' => includes p s'
  end.

(** [s.split(sep)] for a one-character separator. *)
Fixpoint split (sep : ascii) (s : string) : list string :=
  match s with
  | EmptyString => [EmptyString]
  | String c s' =>
      if Ascii.eqb c sep then EmptyString :: split sep s'
      else match split sep s' with
           | [] => [String c EmptyString]
           | w :: ws => String c w :: ws
           end
  end.

Definition hexDigit (n : N) : ascii :=
  ascii_of_N (if (n <? 10)%N then 48 + n else 87 + n)%N.

(** [Buffer.prototype.toString("hex")]: two lower-case digits per byte. *)
Fixpoint toHex (bs : list Byte.byte) : string :=
  match bs with
  | [] => EmptyString
  | b :: bs' =>
      let n := Byte.to_N b in
      String (hexDigit (n / 16)) (String (hexDigit (n mod 16)) (toHex bs'))
  end.

(** *** Vocabulary of the properties *)

Fixpoint noWhiteSpace (s : string) : bool :=
  match s with
  | EmptyString => true
  | String c s' => negb (isWhiteSpace c) && noWhiteSpace s'
  end.

End Js.

(** ** Exceptions and results

    A synchronous call either returns a value or throws; [Throw] carries the
    text that [String(err)] gives. *)
Inductive result (A : Type) : Type :=
| Ok (a : A)
| Throw (err : string).
Arguments Ok {A} a.
Arguments Throw {A} err.

Definition result_bind {A B} (r : result A) (k : A -> result B) : result B :=
  match r with
  | Ok a => k a
  | Throw e => Throw e
  end.

Definition result_map {A B} (f : A -> B) (r : result A) : result B :=
  result_bind r (fun a => Ok (f a)).

(** ** The file system seen through [node:fs]

    A directory tree.  A path is the list of its segments below the root;
    the directories the wrapper is configured with are absolute and
    normalised, so a configured directory is given as such a list.  The
    calls fail on the structural errors of the tree (a missing parent, a
    file where a directory is needed); permissions and quotas are outside
    the model. *)
Module Fs.

Definition path := list string.

#[warnings="-register-all"]
Inductive node : Type :=
| File (content : string) (mode : N)
| Dir (entries : list (string * node)).

Definition emptyDir : node := Dir [].

Fixpoint assoc {A} (k : string) (l : list (string * A)) : option A :=
  match l with
  | [] => None
  | (k', v) :: l' => if String.eqb k k' then Some v else assoc k l'
  end.

(** Replace the entry in place, or add it at the end. *)
Fixpoint assoc_set {A} (k : string) (v : A) (l : list (string * A)) : list (string * A) :=
  match l with
  | [] => [(k, v)]
  | (k', v') :: l' =>
      if String.eqb k k' then (k, v) :: l' else (k', v') :: assoc_set k v l'
  end.

Fixpoint assoc_del {A} (k : string) (l : list (string * A)) : list (string * A) :=
  match l with
  | [] => []
  | (k', v') :: l' =>
      if String.eqb k k' then assoc_del k l' else (k', v') :: assoc_del k l'
  end.

Fixpoint lookup (n : node) (p : path) : option node :=
  match p with
  | [] => Some n
  | x :: p' =>
      match n with
      | Dir es =>
          match assoc x es with
          | Some c => lookup c p'
          | None => None
          end
      | File _ _ => None
      end
  end.

(** [fs.existsSync] *)
Definition existsSync (n : node) (p : path) : bool :=
  match lookup n p with Some _ => true | None => false end.

(** [fs.mkdirSync(p, { recursive: true })] *)
Fixpoint mkdir_p (p : path) (n : node) : result node :=
  match p with
  | [] =>
      match n with
      | Dir _ => Ok n
      | File _ _ => Throw "EEXIST"
      end
  | x :: p' =>
      match n with
      | File _ _ => Throw "ENOTDIR"
      | Dir es =>
          match mkdir_p p' (match assoc x es with Some c => c | None => emptyDir end) with
          | Ok c' => Ok (Dir (assoc_set x c' es))
          | Throw e => Throw e
          end
      end
  end.

(** [fs.writeFileSync(p, data, { mode })]: the mode is used when the file is
    created; an existing file keeps its mode. *)
Fixpoint writeFileSync (p : path) (data : string) (mode : N) (n : node) : result node :=
  match p with
  | [] =>
      match n with
      | File _ m => Ok (File data m)
      | Dir _ => Throw "EISDIR"
      end
  | x :: p' =>
      match n with
      | File _ _ => Throw "ENOTDIR"
      | Dir es =>
          match assoc x es, p' with
          | None, [] => Ok (Dir (assoc_set x (File data mode) es))
          | None, _ :: _ => Throw "ENOENT"
          | Some c, _ =>
              match writeFileSync p' data mode c with
              | Ok c' => Ok (Dir (assoc_set x c' es))
              | Throw e => Throw e
              end
          end
      end
  end.

(** [fs.readFileSync(p, "utf8")] *)
Definition readFileSync (n : node) (p : path) : result string :=
  match lookup n p with
  | Some (File c _) => Ok c
  | Some (Dir _) => Throw "EISDIR"
  | None => Throw "ENOENT"
  end.

(** [fs.readdirSync(p)] *)
Definition readdirSync (n : node) (p : path) : result (list string) :=
  match lookup n p with
  | Some (Dir es) => Ok (map fst es)
  | Some (File _ _) => Throw "ENOTDIR"
  | None => Throw "ENOENT"
  end.

(** [fs.rmSync(p, { recursive: true, force: true })]: a missing path is not
    an error. *)
Fixpoint rmSync (p : path) (n : node) : node :=
  match p with
  | [] => n
  | x :: p' =>
      match n with
      | File _ _ => n
      | Dir es =>
          match p' with
          | [] => Dir (assoc_del x es)
          | _ :: _ =>
              match assoc x es with
              | Some c => Dir (assoc_set x (rmSync p' c) es)
              | None => n
              end
          end
      end
  end.

(** Install the tree [t] at [p]; the parent of [p] has to be a directory. *)
Fixpoint put (p : path) (t : node) (n : node) : result node :=
  match p with
  | [] => Ok t
  | x :: p' =>
      match n with
      | File _ _ => Throw "ENOTDIR"
      | Dir es =>
          match p' with
          | [] => Ok (Dir (assoc_set x t es))
          | _ :: _ =>
              match assoc x es with
              | Some c =>
                  match put p' t c with
                  | Ok c' => Ok (Dir (assoc_set x c' es))
                  | Throw e => Throw e
                  end
              | None => Throw "ENOENT"
              end
          end
      end
  end.

Definition isPrefix (p q : path) : bool := bool_decide (p `prefix_of` q).

(** [fs.renameSync(src, dst)] *)
Definition renameSync (src dst : path) (n : node) : result node :=
  match lookup n src with
  | None => Throw "ENOENT"
  | Some t =>
      if bool_decide (src = dst) then Ok n
      else if isPrefix src dst then Throw "EINVAL"
      else
        match t, lookup n dst with
        | Dir _, Some (File _ _) => Throw "ENOTDIR"
        | Dir _, Some (Dir (_ :: _)) => Throw "ENOTEMPTY"
        | File _ _, Some (Dir _) => Throw "EISDIR"
        | _, _ => put dst t (rmSync src n)
        end
  end.

(** What [fs.cpSync] leaves at the destination: files overwrite files,
    directories are merged entry by entry, a file never replaces a directory
    nor a directory a file. *)
Fixpoint cpMerge (s : node) (d : option node) : result node :=
  match s with
  | File c m =>
      match d with
      | Some (Dir _) => Throw "ERR_FS_CP_NON_DIR_TO_DIR"
      | Some (File _ m') => Ok (File c m')
      | None => Ok (File c m)
      end
  | Dir ses =>
      match d with
      | Some (File _ _) => Throw "ERR_FS_CP_DIR_TO_NON_DIR"
      | _ =>
          let des := match d with Some (Dir des) => des | _ => [] end in
          result_map Dir
            ((fix go (l acc : list (string * node)) : result (list (string * node)) :=
                match l with
                | [] => Ok acc
                | (x, c) :: l' =>
                    match cpMerge c (assoc x acc) with
                    | Ok c' => go l' (assoc_set x c' acc)
                    | Throw e => Throw e
                    end
                end) ses des)
      end
  end.

Definition dirname (p : path) : path := removelast p.

(** [fs.cpSync(src, dst, { recursive: true })] *)
Definition cpSync (src dst : path) (n : node) : result node :=
  match lookup n src with
  | None => Throw "ENOENT"
  | Some t =>
      if isPrefix src dst then Throw "ERR_FS_CP_EINVAL"
      else
        result_bind (cpMerge t (lookup n dst)) (fun t' =>
        result_bind (mkdir_p (dirname dst) n) (fun n1 =>
        put dst t' n1))
  end.

(** *** Vocabulary of the properties *)

Definition incomparable (p q : path) : Prop :=
  ¬ p `prefix_of` q ∧ ¬ q `prefix_of` p.

End Fs.

(** ** Gateway token ([resolveGatewayToken], server.js 61-84) *)
Module Token.
Import Fs.

(** [process.env.NAME?.trim()] *)
Definition envTrim (env : gmap string string) (name : string) : option string :=
  Js.trim <$> env !! name.

(** The operator-supplied override: the first truthy of the three aliases. *)
Definition envTok (env : gmap string string) : option string :=
  Js.or (Js.or (envTrim env "OPENCLAW_GATEWAY_TOKEN")
               (envTrim env "MOLTBOT_GATEWAY_TOKEN"))
        (envTrim env "CLAWDBOT_GATEWAY_TOKEN").

Definition tokenPath (stateDir : path) : path := stateDir ++ ["gateway.token"].

(** [0o600] *)
Definition tokenMode : N := 384.

(** The best-effort block [try { mkdirSync; writeFileSync } catch {}]. *)
Definition persist (stateDir : path) (generated : string) (fs : node) : node :=
  match mkdir_p stateDir fs with
  | Throw _ => fs
  | Ok fs1 =>
      match writeFileSync (tokenPath stateDir) generated tokenMode fs1 with
      | Throw _ => fs1
      | Ok fs2 => fs2
      end
  end.

(** [resolveGatewayToken()]: [randomBytes] is what [crypto.randomBytes(32)]
    returns in this run; the result is the token and the file system the
    call leaves. *)
Definition resolveGatewayToken (env : gmap string string) (stateDir : path)
    (randomBytes : list Byte.byte) (fs : node) : string * node :=
  let envTok := envTok env in
  if Js.truthy envTok then (default "" envTok, fs)
  else
    let existing :=
      match readFileSync fs (tokenPath stateDir) with
      | Ok c => Some (Js.trim c)
      | Throw _ => None
      end in
    if Js.truthy existing then (default "" existing, fs)
    else
      let generated := Js.toHex randomBytes in
      (generated, persist stateDir generated fs).

End Token.

(** ** Command runner ([runCmd], server.js 578-604)

    The promise [runCmd] returns is settled by the events of the child
    process; [spawn cmd args opts] is what the child started for these
    arguments emits, in order of arrival. *)
Module Runner.

Inductive ChildEvent : Type :=
| StdoutData (d : string)
| StderrData (d : string)
| ErrorEvent (err : string)        (* 'error': the spawn failed, [err] is [String(err)] *)
| CloseEvent (code : option Z).    (* 'close': [code] is [null] after a signal *)

Record CmdResult : Type := { code : Z; output : string }.

Inductive Promise (A : Type) : Type :=
| Pending
| Fulfilled (v : A)
| Rejected (reason : string).
Arguments Pending {A}.
Arguments Fulfilled {A} v.
Arguments Rejected {A} reason.

(** The closure of the executor: the variable [out] and the promise. *)
Record RunState : Type := { out : string; promise : Promise CmdResult }.

(** [resolve(v)]: only the first settlement counts. *)
Definition resolve (v : CmdResult) (st : RunState) : RunState :=
  match promise st with
  | Pending => {| out := out st; promise := Fulfilled v |}
  | _ => st
  end.

Definition LF : string := String (ascii_of_N 10) EmptyString.

(** [code ?? 0] *)
Definition codeOrZero (code : option Z) : Z :=
  match code with Some c => c | None => 0%Z end.

Definition onEvent (st : RunState) (ev : ChildEvent) : RunState :=
  match ev with
  | StdoutData d => {| out := out st +:+ d; promise := promise st |}
  | StderrData d => {| out := out st +:+ d; promise := promise st |}
  | ErrorEvent err =>
      let out' := out st +:+ LF +:+ "[spawn error] " +:+ err +:+ LF in
      resolve {| code := 127; output := out' |} {| out := out'; promise := promise st |}
  | CloseEvent code =>
      resolve {| code := codeOrZero code; output := out st |} st
  end.

(** The options object given to [childProcess.spawn]: only the fields this
    development looks at. *)
Record SpawnOptions : Type := {
  cwd : option string;
  env : gmap string string
}.

Section WithSpawn.
Variable spawn : string → list string → SpawnOptions → list ChildEvent.
(** [process.env], [STATE_DIR] and [WORKSPACE_DIR] *)
Variable processEnv : gmap string string.
Variables STATE_DIR WORKSPACE_DIR : string.

(** [{ ...process.env, OPENCLAW_STATE_DIR: STATE_DIR, ... }] *)
Definition childEnv : gmap string string :=
  <["CLAWDBOT_WORKSPACE_DIR" := WORKSPACE_DIR]>
  (<["MOLTBOT_WORKSPACE_DIR" := WORKSPACE_DIR]>
  (<["OPENCLAW_WORKSPACE_DIR" := WORKSPACE_DIR]>
  (<["CLAWDBOT_STATE_DIR" := STATE_DIR]>
  (<["MOLTBOT_STATE_DIR" := STATE_DIR]>
  (<["OPENCLAW_STATE_DIR" := STATE_DIR]> processEnv))))).

(** [runCmd(cmd, args, opts)]: the options are [{ ...opts, env: childEnv }],
    so an [env] in [opts] is replaced. *)
Definition runCmd (cmd : string) (args : list string) (opts : SpawnOptions)
    : Promise CmdResult :=
  promise (fold_left onEvent
             (spawn cmd args {| cwd := cwd opts; env := childEnv |})
             {| out := ""; promise := Pending |}).

End WithSpawn.

Definition isData (ev : ChildEvent) : bool :=
  match ev with
  | StdoutData _ | StderrData _ => true
  | _ => false
  end.

(** The text of the data events, in arrival order. *)
Fixpoint captured (evs : list ChildEvent) : string :=
  match evs with
  | [] => ""
  | StdoutData d :: evs' => d +:+ captured evs'
  | StderrData d :: evs' => d +:+ captured evs'
  | _ :: evs' => captured evs'
  end.

(** *** Sample children *)

(** A child that is missing: the spawn error arrives first, then the close
    with a negative code. *)
Definition spawn_missing (cmd : string) (args : list string) (opts : SpawnOptions)
    : list ChildEvent :=
  [ErrorEvent "Error: spawn node ENOENT"; CloseEvent (Some (-2)%Z)].

(** A child that prints and exits with code 3. *)
Definition spawn_exit3 (cmd : string) (args : list string) (opts : SpawnOptions)
    : list ChildEvent :=
  [StdoutData "a"; StderrData "b"; CloseEvent (Some 3%Z)].

(** No options: [opts = {}]. *)
Definition noOpts : SpawnOptions := {| cwd := None; env := ∅ |}.

(** A child that prints and is then killed by a signal. *)
Definition spawn_killed (cmd : string) (args : list string) (opts : SpawnOptions)
    : list ChildEvent :=
  [StdoutData "partial"; CloseEvent None].

End Runner.

(** ** Readiness prober ([waitForGatewayReady], server.js 150-165)

    Time is in milliseconds.  The environment says how a [fetch] started at
    a given time ends and how long it takes, and by how much a timer fires
    late. *)
Module Prober.

Record Env : Type := {
  (** the [fetch] started at time [t]: an HTTP response with its status, or
      a thrown network error *)
  fetchAt : Z → result Z;
  (** how long that [fetch] takes to settle *)
  fetchTime : Z → Z;
  (** how much later than asked the timer set at time [t] fires *)
  timerLag : Z → Z
}.

Inductive Action : Type :=
| Fetch (at_ : Z)      (* [fetch(GATEWAY_TARGET/openclaw)] started at this time *)
| Sleep (ms : Z).      (* [await sleep(ms)] *)

(** What the function has at its end: the value it returns or the exception
    it lets escape, the clock, and what it did. *)
Record Run : Type := { value : result bool; clock : Z; actions : list Action }.

(** The [while] loop; [fuel] bounds the number of iterations. *)
Fixpoint loop (env : Env) (timeoutMs start : Z) (fuel : nat) (now : Z)
    (acc : list Action) : option Run :=
  match fuel with
  | O => None
  | S fuel' =>
      if (now - start <? timeoutMs)%Z then
        let now1 := (now + Z.max 0 (fetchTime env now))%Z in
        let acc1 := acc ++ [Fetch now] in
        match fetchAt env now with
        | Ok _ =>
            (* [if (res) return true]: a Response object is truthy *)
            Some {| value := Ok true; clock := now1; actions := acc1 |}
        | Throw _ =>
            (* [catch { }], then [await sleep(250)] *)
            let now2 := (now1 + 250 + Z.max 0 (timerLag env now1))%Z in
            loop env timeoutMs start fuel' now2 (acc1 ++ [Sleep 250])
        end
      else Some {| value := Ok false; clock := now; actions := acc |}
  end.

(** Iterations that are always enough: every failed poll costs 250 ms. *)
Definition enoughFuel (timeoutMs : Z) : nat := S (Z.to_nat (timeoutMs / 250 + 1)).

(** [waitForGatewayReady(opts)] called at time [start];
    [opts.timeoutMs ?? 20_000]. *)
Definition waitForGatewayReady (env : Env) (timeoutMsOpt : option Z) (start : Z) : option Run :=
  let timeoutMs := match timeoutMsOpt with Some t => t | None => 20000%Z end in
  loop env timeoutMs start (enoughFuel timeoutMs) start [].

(** Polls and sleeps alternate, and every sleep asks for 250 ms. *)
Fixpoint paced (acts : list Action) : bool :=
  match acts with
  | [] => true
  | [Fetch _] => true
  | Fetch _ :: Sleep ms :: rest => (ms =? 250)%Z && paced rest
  | _ => false
  end.

(** *** Vocabulary of the properties and sample environments *)

Definition isResponse (env : Env) (t : Z) : bool :=
  match fetchAt env t with Ok _ => true | Throw _ => false end.

(** What one run of the loop from time [now] adds to the actions [acc]. *)
Definition loopPost (env : Env) (timeoutMs start now : Z) (acc : list Action) (r : Run) : Prop :=
  ∃ b new,
    value r = Ok b ∧ actions r = acc ++ new ∧ paced new = true ∧ (now ≤ clock r)%Z ∧
    (∀ t, In (Fetch t) new → (now ≤ t ∧ t - start < timeoutMs)%Z) ∧
    (if b then ∃ t, In (Fetch t) new ∧ isResponse env t = true
     else (timeoutMs ≤ clock r - start)%Z ∧
          ∀ t, In (Fetch t) new → isResponse env t = false).

(** A backend that starts listening 600 ms after time 0 and then answers
    503; polls take 10 ms and timers are exact. *)
Definition env_late : Env :=
  {| fetchAt := fun t => if (t <? 600)%Z then Throw "ECONNREFUSED" else Ok 503%Z;
     fetchTime := fun _ => 10%Z;
     timerLag := fun _ => 0%Z |}.

(** A backend that never listens. *)
Definition env_never : Env :=
  {| fetchAt := fun _ => Throw "ECONNREFUSED";
     fetchTime := fun _ => 0%Z;
     timerLag := fun _ => 0%Z |}.

End Prober.

(** ** Process supervisor ([startGateway], [ensureGatewayRunning],
    server.js 143-227)

    The wrapper runs on one event loop: a task runs until its next [await],
    and tasks interleave only there.  A state holds the two module
    variables, the promises created for startup attempts, the callers
    suspended at [await gatewayStarting] and what the finished calls
    settled with.  An event is one uninterrupted piece of some task. *)
Module Supervisor.

(** How a call of [ensureGatewayRunning] settles. *)
Inductive Outcome : Type :=
| ResolvedOk                         (* [{ ok: true }] *)
| ResolvedNotOk (reason : string)    (* [{ ok: false, reason }] *)
| RejectedWith (err : string).       (* the promise rejects *)

(** Where the async arrow behind [gatewayStarting] stands. *)
Inductive Phase : Type :=
| AwaitingStart (r : result unit)    (* at [await startGateway()], which settled with [r] *)
| Probing                            (* inside [await waitForGatewayReady(...)] *)
| Settling (r : result unit).        (* the arrow is over, [.finally] has not run yet *)

Inductive Attempt : Type :=
| InFlight (ph : Phase)
| Settled (r : result unit).

Record State : Type := {
  configured : bool;                 (* what [isConfigured()] returns *)
  dirsCreatable : bool;              (* whether the two [mkdirSync] succeed *)
  gatewayProc : option nat;          (* the handle: the number of the spawn *)
  gatewayStarting : option nat;      (* the promise: its index in [attempts] *)
  spawned : nat;                     (* calls of [childProcess.spawn] so far *)
  attempts : list Attempt;
  waiting : list (nat * nat);        (* caller, attempt it awaits *)
  returned : list (nat * Outcome)    (* caller, what its call settled with *)
}.

Inductive Event : Type :=
| Call (c : nat)                     (* task [c] calls [ensureGatewayRunning()] *)
| StartAwaited (a : nat)             (* attempt [a] resumes after [await startGateway()] *)
| ProbeDone (a : nat) (ready : bool) (* [waitForGatewayReady] of attempt [a] resolves *)
| FinallyRuns (a : nat)              (* the [.finally] callback of attempt [a] *)
| Resume (c : nat)                   (* caller [c] resumes after [await gatewayStarting] *)
| ProcessGone (pid : nat)            (* the 'error' or 'exit' handler of spawn [pid] *)
| HandleCleared                      (* [gatewayProc = null] of a restart or an import *)
| ConfigChanged (b : bool)           (* the config file appears or is deleted *)
| DirsChanged (b : bool).

Definition set_proc (v : option nat) (s : State) : State :=
  {| configured := configured s; dirsCreatable := dirsCreatable s;
     gatewayProc := v; gatewayStarting := gatewayStarting s;
     spawned := spawned s; attempts := attempts s;
     waiting := waiting s; returned := returned s |}.

Definition set_starting (v : option nat) (s : State) : State :=
  {| configured := configured s; dirsCreatable := dirsCreatable s;
     gatewayProc := gatewayProc s; gatewayStarting := v;
     spawned := spawned s; attempts := attempts s;
     waiting := waiting s; returned := returned s |}.

Definition set_spawned (v : nat) (s : State) : State :=
  {| configured := configured s; dirsCreatable := dirsCreatable s;
     gatewayProc := gatewayProc s; gatewayStarting := gatewayStarting s;
     spawned := v; attempts := attempts s;
     waiting := waiting s; returned := returned s |}.

Definition set_attempts (v : list Attempt) (s : State) : State :=
  {| configured := configured s; dirsCreatable := dirsCreatable s;
     gatewayProc := gatewayProc s; gatewayStarting := gatewayStarting s;
     spawned := spawned s; attempts := v;
     waiting := waiting s; returned := returned s |}.

Definition set_waiting (v : list (nat * nat)) (s : State) : State :=
  {| configured := configured s; dirsCreatable := dirsCreatable s;
     gatewayProc := gatewayProc s; gatewayStarting := gatewayStarting s;
     spawned := spawned s; attempts := attempts s;
     waiting := v; returned := returned s |}.

Definition set_returned (v : list (nat * Outcome)) (s : State) : State :=
  {| configured := configured s; dirsCreatable := dirsCreatable s;
     gatewayProc := gatewayProc s; gatewayStarting := gatewayStarting s;
     spawned := spawned s; attempts := attempts s;
     waiting := waiting s; returned := v |}.

Definition set_configured (v : bool) (s : State) : State :=
  {| configured := v; dirsCreatable := dirsCreatable s;
     gatewayProc := gatewayProc s; gatewayStarting := gatewayStarting s;
     spawned := spawned s; attempts := attempts s;
     waiting := waiting s; returned := returned s |}.

Definition set_dirs (v : bool) (s : State) : State :=
  {| configured := configured s; dirsCreatable := v;
     gatewayProc := gatewayProc s; gatewayStarting := gatewayStarting s;
     spawned := spawned s; attempts := attempts s;
     waiting := waiting s; returned := returned s |}.

(** [startGateway()]: it has no [await], so it runs to its end within the
    caller's piece.  The result is how its promise settles. *)
Definition startGateway (s : State) : result unit * State :=
  match gatewayProc s with
  | Some _ => (Ok tt, s)
  | None =>
      if negb (configured s) then (Throw "Error: Gateway cannot start: not configured", s)
      else if negb (dirsCreatable s) then (Throw "Error: mkdir failed", s)
      else (Ok tt, set_spawned (S (spawned s)) (set_proc (Some (spawned s)) s))
  end.

Definition settle (c : nat) (o : Outcome) (s : State) : State :=
  set_returned ((c, o) :: returned s) s.

(** [ensureGatewayRunning()] up to its [await]. *)
Definition ensureGatewayRunning (c : nat) (s : State) : State :=
  if negb (configured s) then settle c (ResolvedNotOk "not configured") s
  else
    match gatewayProc s with
    | Some _ => settle c ResolvedOk s
    | None =>
        let s1 :=
          match gatewayStarting s with
          | None =>
              let '(r, s') := startGateway s in
              set_starting (Some (length (attempts s')))
                (set_attempts (attempts s' ++ [InFlight (AwaitingStart r)]) s')
          | Some _ => s
          end in
        match gatewayStarting s1 with
        | Some a => set_waiting ((c, a) :: waiting s1) s1
        | None => s1
        end
    end.

Definition notReady : string := "Error: Gateway did not become ready in time".

(** The rest of [ensureGatewayRunning] after [await gatewayStarting]. *)
Definition outcomeOf (r : result unit) : Outcome :=
  match r with
  | Ok _ => ResolvedOk
  | Throw e => RejectedWith e
  end.

Fixpoint awaited (c : nat) (w : list (nat * nat)) : option nat :=
  match w with
  | [] => None
  | (c', a) :: w' => if Nat.eqb c c' then Some a else awaited c w'
  end.

Fixpoint unwait (c : nat) (w : list (nat * nat)) : list (nat * nat) :=
  match w with
  | [] => []
  | (c', a) :: w' => if Nat.eqb c c' then w' else (c', a) :: unwait c w'
  end.

Definition step (s : State) (ev : Event) : State :=
  match ev with
  | Call c => ensureGatewayRunning c s
  | StartAwaited a =>
      match attempts s !! a with
      | Some (InFlight (AwaitingStart (Ok _))) =>
          set_attempts (<[a := InFlight Probing]> (attempts s)) s
      | Some (InFlight (AwaitingStart (Throw e))) =>
          set_attempts (<[a := InFlight (Settling (Throw e))]> (attempts s)) s
      | _ => s
      end
  | ProbeDone a ready =>
      match attempts s !! a with
      | Some (InFlight Probing) =>
          let r := if ready then Ok tt else Throw notReady in
          set_attempts (<[a := InFlight (Settling r)]> (attempts s)) s
      | _ => s
      end
  | FinallyRuns a =>
      match attempts s !! a with
      | Some (InFlight (Settling r)) =>
          set_attempts (<[a := Settled r]> (attempts s)) (set_starting None s)
      | _ => s
      end
  | Resume c =>
      match awaited c (waiting s) with
      | Some a =>
          match attempts s !! a with
          | Some (Settled r) =>
              settle c (outcomeOf r) (set_waiting (unwait c (waiting s)) s)
          | _ => s
          end
      | None => s
      end
  | ProcessGone pid =>
      if Nat.ltb pid (spawned s) then set_proc None s else s
  | HandleCleared => set_proc None s
  | ConfigChanged b => set_configured b s
  | DirsChanged b => set_dirs b s
  end.

Definition run (s : State) (evs : list Event) : State := fold_left step evs s.

Definition inFlight (s : State) (a : nat) : Prop :=
  ∃ ph, attempts s !! a = Some (InFlight ph).

(** The state right after the wrapper has started. *)
Definition initial (cfg dirs : bool) : State :=
  {| configured := cfg; dirsCreatable := dirs; gatewayProc := None;
     gatewayStarting := None; spawned := 0; attempts := [];
     waiting := []; returned := [] |}.

(** *** Vocabulary of the properties *)

(** At most one attempt is in flight, and it is the one [gatewayStarting]
    holds. *)
Definition singleAttempt (s : State) : Prop :=
  ∀ a, inFlight s a → gatewayStarting s = Some a.

(** The event that ends an attempt. *)
Definition isFinally (ev : Event) : bool :=
  match ev with FinallyRuns _ => true | _ => false end.

Definition attemptSettled (at_ : Attempt) : bool :=
  match at_ with InFlight _ => false | Settled _ => true end.

(** No attempt is in flight. *)
Definition noneInFlight (s : State) : bool := forallb attemptSettled (attempts s).

(** How many times caller [c] stands in the list of waiting callers. *)
Fixpoint occ (c : nat) (w : list (nat * nat)) : nat :=
  match w with
  | [] => 0
  | (c', _) :: w' => (if Nat.eqb c c' then 1 else 0) + occ c w'
  end.

(** A call made by caller [c]. *)
Definition isCallOf (c : nat) (ev : Event) : bool :=
  match ev with Call c' => Nat.eqb c c' | _ => false end.

(** Caller [c] either still waits for attempt [a], or has been given the
    result of [a] and nothing else. *)
Definition served (c a : nat) (s : State) : Prop :=
  (awaited c (waiting s) = Some a ∧ occ c (waiting s) = 1 ∧
   ¬ In c (map fst (returned s))) ∨
  (occ c (waiting s) = 0 ∧
   ∃ r, attempts s !! a = Some (Settled r) ∧
        In (c, outcomeOf r) (returned s) ∧
        ∀ o, In (c, o) (returned s) → o = outcomeOf r).

End Supervisor.

(** ** State archive manager: import ([POST /setup/import], server.js 917-1073)

    The handler is embedded as a computation over the file system, the
    process handle and a log of the actions it takes on the outside (signals,
    timers, helper commands, the restart).  It is followed on its own: what
    other tasks do at its [await]s is not part of it. *)
Module Archive.
Import Fs.

Inductive Effect : Type :=
| Kill (pid : nat) (signal : string)     (* [gatewayProc.kill(signal)] *)
| Sleep (ms : Z)                         (* [await sleep(ms)] *)
| RunCmd (cmd : string) (args : list string)
| RestartGateway.                        (* [await restartGateway()] *)

Record World : Type := {
  fs : node;
  gatewayProc : option nat;
  effects : list Effect
}.

Definition set_fs (n : node) (w : World) : World :=
  {| fs := n; gatewayProc := gatewayProc w; effects := effects w |}.

Definition set_gatewayProc (p : option nat) (w : World) : World :=
  {| fs := fs w; gatewayProc := p; effects := effects w |}.

(** *** A state and exception monad *)

Definition M (A : Type) : Type := World → result A * World.

Definition ret {A} (a : A) : M A := fun w => (Ok a, w).

Definition bind {A B} (m : M A) (k : A → M B) : M B :=
  fun w =>
    match m w with
    | (Ok a, w') => k a w'
    | (Throw e, w') => (Throw e, w')
    end.

Notation "x <- m ;; k" := (bind m (fun x => k))
  (at level 100, m at next level, right associativity).
Notation "m ;; k" := (bind m (fun _ => k))
  (at level 100, right associativity).

(** [try { body } finally { cleanup }] *)
Definition tryFinally {A} (body : M A) (cleanup : M unit) : M A :=
  fun w =>
    match body w with
    | (r, w1) =>
        match cleanup w1 with
        | (Ok _, w2) => (r, w2)
        | (Throw e, w2) => (Throw e, w2)
        end
    end.

(** [try { body } catch { }] *)
Definition ignoreErrors (body : M unit) : M unit :=
  fun w =>
    match body w with
    | (_, w') => (Ok tt, w')
    end.

(** A call of [node:fs] that changes the tree; a throwing call leaves the
    tree as it was. *)
Definition liftFs (f : node → result node) : M unit :=
  fun w =>
    match f (fs w) with
    | Ok n => (Ok tt, set_fs n w)
    | Throw e => (Throw e, w)
    end.

(** A call of [node:fs] that only reads. *)
Definition readFs {A} (f : node → result A) : M A :=
  fun w => (f (fs w), w).

Definition emit (e : Effect) : M unit :=
  fun w => (Ok tt, {| fs := fs w; gatewayProc := gatewayProc w;
                      effects := effects w ++ [e] |}).

(** *** The archive and its extraction *)

Record TarEntry : Type := {
  entryPath : string;
  entryBody : option string;     (* the content of a file; [None] for a directory *)
  entryMode : N
}.

(** The [filter] option given to [tar.x] (server.js 948-955). *)
Definition filter (entryPath : string) : bool :=
  if Js.includes ".." entryPath then false else true.

(** Where an entry lands below [cwd]: empty and [.] segments vanish (so a
    leading [/] is stripped) and [..] steps up.  This is plain path
    resolution, without any protection of its own. *)
Fixpoint resolveSegs (base : path) (segs : list string) : path :=
  match segs with
  | [] => base
  | seg :: rest =>
      if String.eqb seg "" || String.eqb seg "." then resolveSegs base rest
      else if String.eqb seg ".." then resolveSegs (removelast base) rest
      else resolveSegs (base ++ [seg]) rest
  end.

Definition entryTarget (cwd : path) (entryPath : string) : path :=
  resolveSegs cwd (Js.split "/" entryPath).

Definition extractEntry (cwd : path) (e : TarEntry) : M unit :=
  if filter (entryPath e) then
    let target := entryTarget cwd (entryPath e) in
    match entryBody e with
    | None => liftFs (mkdir_p target)
    | Some data =>
        liftFs (mkdir_p (dirname target)) ;;
        liftFs (writeFileSync target data (entryMode e))
    end
  else ret tt.

Fixpoint extractAll (cwd : path) (entries : list TarEntry) : M unit :=
  match entries with
  | [] => ret tt
  | e :: rest => extractEntry cwd e ;; extractAll cwd rest
  end.

(** *** Settings, request and response *)

Record Config : Type := {
  STATE_DIR : path;
  WORKSPACE_DIR : path;
  tmpdir : path;                  (* [os.tmpdir()] *)
  OPENCLAW_NODE : string;
  OPENCLAW_ENTRY : string;
  GATEWAY_TOKEN : string;
  INTERNAL_GATEWAY_PORT : string  (* [String(INTERNAL_GATEWAY_PORT)] *)
}.

Record Upload : Type := { originalname : string; buffer : string }.

(** What one request draws from the outside. *)
Record Draw : Type := {
  stagingId : string;             (* [crypto.randomBytes(8).toString("hex")] *)
  backupTimestamp : string;       (* [new Date().toISOString().replace(/[:.]/g, "-")] *)
  restartOutcome : result unit    (* how [restartGateway()] settles *)
}.

Inductive Payload : Type :=
| Failure (error : string)                                     (* [{ ok: false, error }] *)
| Success (message : string) (stateDir workspaceDir previousBackup : path).

Record Response : Type := { status : Z; payload : Payload }.

Definition stagingDir (cfg : Config) (d : Draw) : path :=
  tmpdir cfg ++ ["openclaw-import-" +:+ stagingId d].

Definition tarPath (cfg : Config) (d : Draw) : path :=
  stagingDir cfg d ++ ["backup.tar.gz"].

Definition extractDir (cfg : Config) (d : Draw) : path :=
  stagingDir cfg d ++ ["extracted"].

(** [`${dir}.bak-${backupTimestamp}`] *)
Definition bakPath (dir : path) (ts : string) : path :=
  removelast dir ++ [List.last dir "" +:+ ".bak-" +:+ ts].

Definition stateBackupPath (cfg : Config) (d : Draw) : path :=
  bakPath (STATE_DIR cfg) (backupTimestamp d).

Definition workspaceBackupPath (cfg : Config) (d : Draw) : path :=
  bakPath (WORKSPACE_DIR cfg) (backupTimestamp d).

(** [Array.prototype.includes] *)
Definition includesName (names : list string) (x : string) : bool :=
  existsb (String.eqb x) names.

(** [openclawArgs(args)] *)
Definition openclawArgs (cfg : Config) (args : list string) : list string :=
  OPENCLAW_ENTRY cfg :: args.

(** [await runCmd(OPENCLAW_NODE, openclawArgs(args))]: the promise of
    [runCmd] never rejects and its result is not looked at here. *)
Definition runOpenclaw (cfg : Config) (args : list string) : M unit :=
  emit (RunCmd (OPENCLAW_NODE cfg) (openclawArgs cfg args)).

Definition restartGateway (d : Draw) : M unit :=
  emit RestartGateway ;;
  fun w => (restartOutcome d, w).

(** The helper [moveDir]: copy, then delete the source. *)
Definition moveDir (src dest : path) : M unit :=
  liftFs (cpSync src dest) ;;
  liftFs (fun n => Ok (rmSync src n)).

Definition invalidBackup : Response :=
  {| status := 400;
     payload := Failure "Invalid backup: missing .openclaw, .clawdbot, or .moltbot directory. Archive should contain state directory." |}.

(** The [finally] block: remove the staging directory, best effort
    (server.js 1061-1068). *)
Definition cleanup (cfg : Config) (d : Draw) : M unit :=
  ignoreErrors (liftFs (fun n => Ok (rmSync (stagingDir cfg d) n))).

Section WithTar.

(** The decoder of the tar library: the entries of a gzip-compressed tar
    file, or nothing when the bytes are not such a file. *)
Variable untar : string → option (list TarEntry).

(** [tar.x({ file, cwd, filter })] *)
Definition tar_x (file cwd : path) : M unit :=
  bytes <- readFs (fun n => readFileSync n file) ;;
  match untar bytes with
  | None => fun w => (Throw "Error: TAR_BAD_ARCHIVE: Unrecognized archive format", w)
  | Some entries => extractAll cwd entries
  end.

(** From the write of the upload to the listing of what was extracted
    (server.js 935-960). *)
Definition stage (cfg : Config) (d : Draw) (u : Upload) : M (list string) :=
  liftFs (writeFileSync (tarPath cfg d) (buffer u) 438) ;;
  liftFs (mkdir_p (extractDir cfg d)) ;;
  tar_x (tarPath cfg d) (extractDir cfg d) ;;
  readFs (fun n => readdirSync n (extractDir cfg d)).

(** Stop the gateway (server.js 975-985). *)
Definition stopGateway : M unit :=
  fun w =>
    match gatewayProc w with
    | Some pid =>
        (emit (Kill pid "SIGTERM") ;;
         emit (Sleep 750) ;;
         fun w' => (Ok tt, set_gatewayProc None w')) w
    | None => (Ok tt, w)
    end.

(** Move the live directories aside (server.js 993-1005). *)
Definition backupCurrent (cfg : Config) (d : Draw) : M unit :=
  stateExists <- readFs (fun n => Ok (existsSync n (STATE_DIR cfg))) ;;
  (if stateExists : bool
   then liftFs (renameSync (STATE_DIR cfg) (stateBackupPath cfg d))
   else ret tt) ;;
  workspaceExists <- readFs (fun n => Ok (existsSync n (WORKSPACE_DIR cfg))) ;;
  (if (workspaceExists : bool) &&
      negb (bool_decide (WORKSPACE_DIR cfg = STATE_DIR cfg ++ ["workspace"]))
   then liftFs (renameSync (WORKSPACE_DIR cfg) (workspaceBackupPath cfg d))
   else ret tt).

(** Install the extracted state and workspace (server.js 1007-1030). *)
Definition install (cfg : Config) (d : Draw)
    (hasOpenclaw hasClawdbot hasWorkspace : bool) : M unit :=
  liftFs (mkdir_p (dirname (STATE_DIR cfg))) ;;
  liftFs (mkdir_p (dirname (WORKSPACE_DIR cfg))) ;;
  let sourceStateDir :=
    if hasOpenclaw then extractDir cfg d ++ [".openclaw"]
    else if hasClawdbot then extractDir cfg d ++ [".clawdbot"]
    else extractDir cfg d ++ [".moltbot"] in
  moveDir sourceStateDir (STATE_DIR cfg) ;;
  (if hasWorkspace then
     if negb (bool_decide (WORKSPACE_DIR cfg = STATE_DIR cfg ++ ["workspace"]))
     then moveDir (extractDir cfg d ++ ["workspace"]) (WORKSPACE_DIR cfg)
     else ret tt
   else ret tt).

(** Rewrite the token and bind settings, restart (server.js 1032-1049). *)
Definition reconfigure (cfg : Config) (d : Draw) : M unit :=
  runOpenclaw cfg ["config"; "set"; "gateway.auth.mode"; "token"] ;;
  runOpenclaw cfg ["config"; "set"; "gateway.auth.token"; GATEWAY_TOKEN cfg] ;;
  runOpenclaw cfg ["config"; "set"; "gateway.bind"; "loopback"] ;;
  runOpenclaw cfg ["config"; "set"; "gateway.port"; INTERNAL_GATEWAY_PORT cfg] ;;
  runOpenclaw cfg ["config"; "set"; "gateway.controlUi.basePath"; "/openclaw"] ;;
  restartGateway d.

(** Everything after the validation (server.js 975-1060). *)
Definition restore (cfg : Config) (d : Draw)
    (hasOpenclaw hasClawdbot hasWorkspace : bool) : M Response :=
  stopGateway ;;
  backupCurrent cfg d ;;
  install cfg d hasOpenclaw hasClawdbot hasWorkspace ;;
  reconfigure cfg d ;;
  ret {| status := 200;
         payload := Success "Backup imported successfully. Gateway restarted."
                      (STATE_DIR cfg) (WORKSPACE_DIR cfg) (stateBackupPath cfg d) |}.

(** The validation and what follows it (server.js 958-1060). *)
Definition validateAndRestore (cfg : Config) (d : Draw)
    (extractedContents : list string) : M Response :=
  let hasOpenclaw := includesName extractedContents ".openclaw" in
  let hasClawdbot := includesName extractedContents ".clawdbot" in
  let hasMoltbot := includesName extractedContents ".moltbot" in
  let hasWorkspace := includesName extractedContents "workspace" in
  if negb hasOpenclaw && negb hasClawdbot && negb hasMoltbot
  then ret invalidBackup
  else restore cfg d hasOpenclaw hasClawdbot hasWorkspace.

(** The inner [try ... finally] with the creation of the staging directory
    before it (server.js 930-1068). *)
Definition importBody (cfg : Config) (d : Draw) (u : Upload) : M Response :=
  liftFs (mkdir_p (stagingDir cfg d)) ;;
  tryFinally
    (extractedContents <- stage cfg d u ;;
     validateAndRestore cfg d extractedContents)
    (cleanup cfg d).

(** The handler: the outer [try ... catch] turns any exception into the 500
    response. *)
Definition importHandler (cfg : Config) (d : Draw) (file : option Upload)
    (w : World) : Response * World :=
  match file with
  | None => ({| status := 400; payload := Failure "No file uploaded" |}, w)
  | Some u =>
      match importBody cfg d u w with
      | (Ok resp, w') => (resp, w')
      | (Throw err, w') =>
          ({| status := 500; payload := Failure ("Import failed: " +:+ err) |}, w')
      end
  end.

(** What the staging phase yields: the extracted top level, or the
    exception that ended it. *)
Definition staged (cfg : Config) (d : Draw) (u : Upload) (w : World)
    : result (list string) * World :=
  (liftFs (mkdir_p (stagingDir cfg d)) ;; stage cfg d u) w.

End WithTar.

(** Neither path is a prefix of the other. *)
Definition apart (p q : path) : bool := negb (isPrefix p q) && negb (isPrefix q p).

(** *** Vocabulary of the properties and a sample import *)

(** Whatever the outcome, the worlds before and after are related by [R]. *)
Definition preserves {A} (R : World → World → Prop) (m : M A) : Prop :=
  ∀ w r w', m w = (r, w') → R w w'.

(** The tree at [q] is the same before and after. *)
Definition keeps (q : path) (w w' : World) : Prop :=
  lookup (fs w') q = lookup (fs w) q.

(** The handle and the log of outside actions are the same. *)
Definition quiet (w w' : World) : Prop :=
  gatewayProc w' = gatewayProc w ∧ effects w' = effects w.

(** A file found afterwards was there before, unchanged, or lies below [d]. *)
Definition filesWithin (d : path) (w w' : World) : Prop :=
  ∀ q c m, lookup (fs w') q = Some (File c m) →
           lookup (fs w) q = Some (File c m) ∨ d `prefix_of` q.



(** A decoder for three uploads: a good backup, an archive that tries to
    escape and has no state directory, and bytes that are no archive. *)
Definition untar_sample (bytes : string) : option (list TarEntry) :=
  if String.eqb bytes "GOOD" then
    Some [ {| entryPath := ".openclaw/"; entryBody := None; entryMode := 493 |};
           {| entryPath := ".openclaw/openclaw.json"; entryBody := Some "{new}";
              entryMode := 420 |};
           {| entryPath := "workspace/notes.md"; entryBody := Some "hi";
              entryMode := 420 |} ]
  else if String.eqb bytes "EVIL" then
    Some [ {| entryPath := "../../etc/passwd"; entryBody := Some "root::0";
              entryMode := 420 |};
           {| entryPath := "notes.txt"; entryBody := Some "x"; entryMode := 420 |} ]
  else None.

Definition cfg_sample : Config :=
  {| STATE_DIR := ["data"; ".openclaw"];
     WORKSPACE_DIR := ["data"; "workspace"];
     tmpdir := ["tmp"];
     OPENCLAW_NODE := "node";
     OPENCLAW_ENTRY := "/openclaw/dist/index.js";
     GATEWAY_TOKEN := "tok";
     INTERNAL_GATEWAY_PORT := "18789" |}.

Definition draw_sample : Draw :=
  {| stagingId := "00ff";
     backupTimestamp := "2026-01-01T00-00-00-000Z";
     restartOutcome := Ok tt |}.

Definition oldState : node := Dir [("openclaw.json", File "{old}" 384)].

Definition oldWorkspace : node := Dir [("w.txt", File "w" 420)].

Definition world_sample : World :=
  {| fs := Dir [("tmp", Dir []);
                ("etc", Dir [("passwd", File "orig" 420)]);
                ("data", Dir [(".openclaw", oldState); ("workspace", oldWorkspace)])];
     gatewayProc := Some 3;
     effects := [] |}.

Definition upload_good : Upload := {| originalname := "backup.tar.gz"; buffer := "GOOD" |}.

Definition upload_evil : Upload := {| originalname := "backup.tar.gz"; buffer := "EVIL" |}.

End Archive.

(** ** Settings: state directory and config file ([autoDetectStateDir],
    [configPath], [isConfigured], the reset endpoint; server.js 26-54,
    114-141, 766-775)

    A directory named in the environment is taken as an absolute path. *)
Module Settings.
Import Fs.

(** [process.env.A?.trim() || process.env.B?.trim() || process.env.C?.trim()] *)
Definition envFirst (env : gmap string string) (a b c : string) : option string :=
  Js.or (Js.or (Token.envTrim env a) (Token.envTrim env b)) (Token.envTrim env c).

(** The segments of an absolute path given as a string. *)
Definition parsePath (s : string) : path :=
  Archive.resolveSegs [] (Js.split "/" s).

Definition openclawDir : path := ["data"; ".openclaw"].
Definition clawdbotDir : path := ["data"; ".clawdbot"].

(** [autoDetectStateDir()]; [homedir] is [os.homedir()]. *)
Definition autoDetectStateDir (env : gmap string string) (homedir : path) (fs : node)
    : path :=
  let homeDir := homedir ++ [".openclaw"] in
  let explicit :=
    envFirst env "OPENCLAW_STATE_DIR" "MOLTBOT_STATE_DIR" "CLAWDBOT_STATE_DIR" in
  if Js.truthy explicit then parsePath (default "" explicit)
  else if existsSync fs openclawDir then openclawDir
  else if existsSync fs clawdbotDir then clawdbotDir
  else if existsSync fs ["data"] then openclawDir
  else homeDir.

(** [WORKSPACE_DIR] (server.js 50-54) *)
Definition workspaceDir (env : gmap string string) (stateDir : path) : path :=
  let explicit :=
    envFirst env "OPENCLAW_WORKSPACE_DIR" "MOLTBOT_WORKSPACE_DIR"
      "CLAWDBOT_WORKSPACE_DIR" in
  if Js.truthy explicit then parsePath (default "" explicit)
  else stateDir ++ ["workspace"].

(** [configPath()] *)
Definition configPath (env : gmap string string) (stateDir : path) (fs : node) : path :=
  let explicit :=
    envFirst env "OPENCLAW_CONFIG_PATH" "MOLTBOT_CONFIG_PATH" "CLAWDBOT_CONFIG_PATH" in
  if Js.truthy explicit then parsePath (default "" explicit)
  else
    let openclawConfig := stateDir ++ ["openclaw.json"] in
    let moltbotConfig := stateDir ++ ["moltbot.json"] in
    let clawdbotConfig := stateDir ++ ["clawdbot.json"] in
    if existsSync fs openclawConfig then openclawConfig
    else if existsSync fs moltbotConfig then moltbotConfig
    else if existsSync fs clawdbotConfig then clawdbotConfig
    else openclawConfig.


(** [fs.rmSync(p, { force: true })]: a missing path is not an error, a
    directory is one. *)
Definition rmForce (p : path) (n : node) : result node :=
  match lookup n p with
  | Some (Dir _) => Throw "ERR_FS_EISDIR"
  | _ => Ok (rmSync p n)
  end.

(** [POST /setup/api/reset]: the status of the answer and the file system
    it leaves. *)
Definition reset (env : gmap string string) (stateDir : path) (fs : node) : Z * node :=
  match rmForce (configPath env stateDir fs) fs with
  | Ok fs' => (200%Z, fs')
  | Throw _ => (500%Z, fs)
  end.


End Settings.

(** ** Access control ([requireSetupAuth], [isPublicRoute],
    [requireControlUiAuth], the fall-through proxy route and the upgrade
    handler; server.js 243-265, 1086-1153, 1167-1205)

    [Buffer.from(encoded, "base64").toString("utf8")] is the function
    [base64]; nothing below depends on what it computes. *)
Module Auth.

(** [s.indexOf(c)] for a one-character [c] *)
Fixpoint indexOf (c : ascii) (s : string) : Z :=
  match s with
  | EmptyString => (-1)%Z
  | String a s' =>
      if Ascii.eqb a c then 0%Z
      else let i := indexOf c s' in if (i <? 0)%Z then (-1)%Z else (i + 1)%Z
  end.

(** [s.slice(n)] for [n >= 0] *)
Fixpoint slice (n : nat) (s : string) : string :=
  match n, s with
  | O, _ => s
  | S _, EmptyString => EmptyString
  | S n', String _ s' => slice n' s'
  end.

(** What a middleware does: it hands the request on, or it answers. *)
Inductive Outcome : Type :=
| Next
| Respond (status : Z) (body : string) (realm : option string).
    (* [realm]: the realm of the [WWW-Authenticate: Basic] header, if set *)

Inductive UpgradeOutcome : Type :=
| Destroyed                          (* [socket.destroy()] and nothing else *)
| Unauthorized                       (* the 401 line, then [socket.destroy()] *)
| ProxiedWs.                         (* [proxy.ws(...)] *)

Inductive RouteOutcome : Type :=
| Redirect (location : string)
| Unavailable (body : string)        (* status 503 *)
| ProxiedWeb.                        (* [proxy.web(...)] *)

Definition PUBLIC_ROUTE_PREFIXES : list string :=
  ["/telegram"; "/discord"; "/slack"; "/webhook"; "/healthz"].

(** [isPublicRoute(path)] *)
Definition isPublicRoute (path : string) : bool :=
  existsb (fun prefix => Js.startsWith prefix path) PUBLIC_ROUTE_PREFIXES.

Section WithDecoder.
Variable base64 : string → string.

(** [requireSetupAuth]; [authorization] is [req.headers.authorization]. *)
Definition requireSetupAuth (SETUP_PASSWORD : option string)
    (authorization : option string) : Outcome :=
  if negb (Js.truthy SETUP_PASSWORD) then
    Respond 500
      "SETUP_PASSWORD is not set. Set it in Railway Variables before using /setup."
      None
  else
    let header := default "" (Js.or authorization (Some "")) in
    let parts := Js.split " " header in
    let scheme := parts !! 0%nat in
    let encoded := parts !! 1%nat in
    if negb (bool_decide (scheme = Some "Basic")) || negb (Js.truthy encoded) then
      Respond 401 "Auth required" (Some "OpenClaw Setup")
    else
      let decoded := base64 (default "" encoded) in
      let idx := indexOf ":" decoded in
      let password :=
        if (0 <=? idx)%Z then slice (Z.to_nat (idx + 1)) decoded else "" in
      if negb (bool_decide (Some password = SETUP_PASSWORD)) then
        Respond 401 "Invalid password" (Some "OpenClaw Setup")
      else Next.

(** [requireControlUiAuth]; [path] is [req.path]. *)
Definition requireControlUiAuth (SETUP_PASSWORD : option string)
    (path : string) (authorization : option string) : Outcome :=
  if isPublicRoute path then Next
  else if negb (Js.startsWith "/openclaw" path) then Next
  else if negb (Js.truthy SETUP_PASSWORD) then
    Respond 500 "SETUP_PASSWORD is not set. Set it in Railway Variables." None
  else
    let header := default "" (Js.or authorization (Some "")) in
    let parts := Js.split " " header in
    let scheme := parts !! 0%nat in
    let encoded := parts !! 1%nat in
    if negb (bool_decide (scheme = Some "Basic")) || negb (Js.truthy encoded) then
      Respond 401 "Auth required" (Some "OpenClaw Control UI")
    else
      let decoded := base64 (default "" encoded) in
      let idx := indexOf ":" decoded in
      let password :=
        if (0 <=? idx)%Z then slice (Z.to_nat (idx + 1)) decoded else "" in
      if negb (bool_decide (Some password = SETUP_PASSWORD)) then
        Respond 401 "Invalid password" (Some "OpenClaw Control UI")
      else Next.

(** The last route of the application: [configured] is what
    [isConfigured()] returns and [ensure] how [ensureGatewayRunning()]
    settles. *)
Definition proxyRoute (configured : bool) (path : string)
    (ensure : Supervisor.Outcome) : RouteOutcome :=
  if negb configured && negb (Js.startsWith "/setup" path) then Redirect "/setup"
  else
    match (if configured then ensure else Supervisor.ResolvedOk) with
    | Supervisor.RejectedWith err => Unavailable ("Gateway not ready: " +:+ err)
    | _ => ProxiedWeb
    end.

(** What a request meets after the routes of [/setup]:
    [requireControlUiAuth], then the proxy route. *)
Definition throughProxy (SETUP_PASSWORD : option string) (configured : bool)
    (path : string) (authorization : option string) (ensure : Supervisor.Outcome)
    : Outcome + RouteOutcome :=
  match requireControlUiAuth SETUP_PASSWORD path authorization with
  | Next => inr (proxyRoute configured path ensure)
  | o => inl o
  end.

(** The handler of ['upgrade']; [pathname] is [url.pathname]. *)
Definition upgrade (configured : bool) (SETUP_PASSWORD : option string)
    (pathname : string) (authorization : option string)
    (ensure : Supervisor.Outcome) : UpgradeOutcome :=
  if negb configured then Destroyed
  else
    let isControlUi := Js.startsWith "/openclaw" pathname in
    let authenticated :=
      let header := default "" (Js.or authorization (Some "")) in
      let parts := Js.split " " header in
      let scheme := parts !! 0%nat in
      let encoded := parts !! 1%nat in
      if bool_decide (scheme = Some "Basic") && Js.truthy encoded then
        let decoded := base64 (default "" encoded) in
        let idx := indexOf ":" decoded in
        let password :=
          if (0 <=? idx)%Z then slice (Z.to_nat (idx + 1)) decoded else "" in
        bool_decide (Some password = SETUP_PASSWORD)
      else false in
    if isControlUi && Js.truthy SETUP_PASSWORD && negb authenticated then Unauthorized
    else
      match ensure with
      | Supervisor.RejectedWith _ => Destroyed
      | _ => ProxiedWs
      end.

End WithDecoder.

(** *** Vocabulary of the properties *)

(** [c] does not occur in [s]. *)
Fixpoint noChar (c : ascii) (s : string) : bool :=
  match s with
  | EmptyString => true
  | String a s' => negb (Ascii.eqb a c) && noChar c s'
  end.

(** A header of Basic authentication: the scheme, one space, the encoded
    credentials, and possibly more after a further space. *)
Definition basicHeader (enc more : string) : Prop :=
  enc ≠ "" ∧ noChar " " enc = true ∧ (more = "" ∨ Js.startsWith " " more = true).

(** The variable [authenticated] of the upgrade handler. *)
Definition authenticated (base64 : string → string) (SETUP_PASSWORD : option string)
    (authorization : option string) : bool :=
  let header := default "" (Js.or authorization (Some "")) in
  let parts := Js.split " " header in
  let scheme := parts !! 0%nat in
  let encoded := parts !! 1%nat in
  if bool_decide (scheme = Some "Basic") && Js.truthy encoded then
    let decoded := base64 (default "" encoded) in
    let idx := indexOf ":" decoded in
    let password :=
      if (0 <=? idx)%Z then slice (Z.to_nat (idx + 1)) decoded else "" in
    bool_decide (Some password = SETUP_PASSWORD)
  else false.

(** The request carries the password: its header is one of Basic
    authentication, and the text after the first colon of the decoded
    credentials is the password. *)
Definition carriesPassword (base64 : string → string) (SETUP_PASSWORD : option string)
    (authorization : option string) : Prop :=
  ∃ password enc more user,
    SETUP_PASSWORD = Some password ∧ password ≠ "" ∧
    authorization = Some ("Basic " +:+ enc +:+ more) ∧ basicHeader enc more ∧
    noChar ":" user = true ∧ base64 enc = user +:+ ":" +:+ password.

(** A sample decoder for the witnesses: Base64 over the standard alphabet,
    up to the first character outside it. *)
Definition b64value (c : ascii) : option N :=
  let n := N_of_ascii c in
  if (65 <=? n)%N && (n <=? 90)%N then Some (n - 65)%N
  else if (97 <=? n)%N && (n <=? 122)%N then Some (n - 71)%N
  else if (48 <=? n)%N && (n <=? 57)%N then Some (n + 4)%N
  else if (n =? 43)%N then Some 62%N
  else if (n =? 47)%N then Some 63%N
  else None.

Fixpoint b64values (s : string) : list N :=
  match s with
  | EmptyString => []
  | String c s' =>
      match b64value c with
      | Some v => v :: b64values s'
      | None => []
      end
  end.

Fixpoint b64bytes (vs : list N) : string :=
  match vs with
  | a :: b :: c :: d :: vs' =>
      String (ascii_of_N (a * 4 + b / 16))
        (String (ascii_of_N ((b mod 16) * 16 + c / 4))
           (String (ascii_of_N ((c mod 4) * 64 + d)) (b64bytes vs')))
  | [a; b; c] =>
      String (ascii_of_N (a * 4 + b / 16))
        (String (ascii_of_N ((b mod 16) * 16 + c / 4)) EmptyString)
  | [a; b] => String (ascii_of_N (a * 4 + b / 16)) EmptyString
  | _ => EmptyString
  end%N.

Definition decodeBase64 (s : string) : string := b64bytes (b64values s).

End Auth.

(** ** Lifetime of the gateway process (the handlers of ['error'] and
    ['exit'] in [startGateway], server.js 200-208; the [gatewayProc = null]
    of [restartGateway], server.js 229-241) *)
Module Lifetime.
Import Supervisor.

(** An event that empties [gatewayProc]. *)
Definition clearsHandle (ev : Event) : bool :=
  match ev with
  | ProcessGone _ | HandleCleared => true
  | _ => false
  end.

(** 1 when [gatewayProc] is [null], else 0. *)
Definition handleFree (s : State) : nat :=
  match gatewayProc s with
  | Some _ => 0
  | None => 1
  end.

(** The pieces of [restartGateway()] run by task [c], from a state in which
    the handle is set: the piece up to [await sleep(750)], which sends the
    signal, is no event of the supervisor; the piece after it clears the
    handle and calls [ensureGatewayRunning()]. *)
Definition restartAfterSleep (c : nat) : list Event := [HandleCleared; Call c].

End Lifetime.

(** ** Cost of the readiness prober (server.js 150-165) *)
Module ProberCost.
Import Prober.

Definition isFetch (a : Action) : bool :=
  match a with Fetch _ => true | Sleep _ => false end.

(** How many polls a run made. *)
Definition polls (acts : list Action) : nat := length (List.filter isFetch acts).

End ProberCost.

(** ** State archive manager: what a successful import installs
    (server.js 993-1030) *)
Module Restore.
Import Fs Archive.



(** *** Vocabulary of the properties *)


End Restore.

(** ** Archives of trees

    What an archive lists for a tree, in the order in which [tar] walks it:
    a directory before what it holds, the path of a directory with a
    trailing [/]. *)
Module Tarball.
Import Fs Archive.


(** *** Vocabulary of the properties *)



End Tarball.

(* ===================================================================== *)
(** * Part II: properties                                                 *)
(* ===================================================================== *)

Module JsFacts.
Import Js.

Example trim_example : trim "  ab c
 " = "ab c".
Proof. reflexivity. Qed.

Example split_example : split "/" "../../etc/passwd" = [".."; ".."; "etc"; "passwd"].
Proof. reflexivity. Qed.

Example includes_example : includes ".." "a/..b" = true /\ includes ".." "a/.b./c" = false.
Proof. split; reflexivity. Qed.

Example toHex_example : toHex [Byte.x00; Byte.xff; Byte.x1a] = "00ff1a".
Proof. reflexivity. Qed.

Lemma trimStart_noWhiteSpace s : noWhiteSpace s = true → trimStart s = s.
Proof.
  destruct s as [| c s]; simpl; [done |].
  intros [Hc _]%andb_prop. by destruct (isWhiteSpace c).
Qed.

Lemma trimEnd_noWhiteSpace s : noWhiteSpace s = true → trimEnd s = s.
Proof.
  induction s as [| c s IH]; simpl; [done |].
  intros [Hc Hs]%andb_prop. rewrite (IH Hs).
  destruct s; [| done]. by destruct (isWhiteSpace c).
Qed.

Lemma trim_noWhiteSpace s : noWhiteSpace s = true → trim s = s.
Proof.
  intros H. unfold trim. rewrite (trimStart_noWhiteSpace _ H).
  by apply trimEnd_noWhiteSpace.
Qed.

Lemma hexDigits_noWhiteSpace b :
  isWhiteSpace (hexDigit (Byte.to_N b / 16)) = false ∧
  isWhiteSpace (hexDigit (Byte.to_N b mod 16)) = false.
Proof. destruct b; split; reflexivity. Qed.

Lemma toHex_noWhiteSpace bs : noWhiteSpace (toHex bs) = true.
Proof.
  induction bs as [| b bs IH]; simpl; [done |].
  destruct (hexDigits_noWhiteSpace b) as [-> ->]. by rewrite IH.
Qed.

(** A hex string survives [trim] unchanged. *)
Lemma trim_toHex bs : trim (toHex bs) = toHex bs.
Proof. apply trim_noWhiteSpace, toHex_noWhiteSpace. Qed.

Lemma append_cons x (a b : string) : String x a +:+ b = String x (a +:+ b).
Proof. reflexivity. Qed.

Lemma append_assoc (a b c : string) : (a +:+ b) +:+ c = a +:+ (b +:+ c).
Proof. induction a as [| x a IH]; [done |]. by rewrite !append_cons, IH. Qed.

Lemma append_nil_r (a : string) : a +:+ "" = a.
Proof. induction a as [| x a IH]; [done |]. by rewrite append_cons, IH. Qed.

Lemma startsWith_nil s : startsWith "" s = true.
Proof. by destruct s. Qed.

Lemma includes_tail p c s : includes p s = true → includes p (String c s) = true.
Proof. intros H. simpl. rewrite H. apply orb_true_r. Qed.

Lemma startsWith_includes p s : startsWith p s = true → includes p s = true.
Proof. intros H. destruct s; simpl; rewrite H; done. Qed.

Lemma split_nonempty sep s : split sep s ≠ [].
Proof.
  induction s as [| c s IH]; simpl; [done |].
  destruct (Ascii.eqb c sep); [done |]. by destruct (split sep s).
Qed.

(** The first segment is a prefix of the string and every segment occurs in
    it. *)
Lemma split_segments sep s :
  startsWith (hd "" (split sep s)) s = true ∧
  ∀ seg, In seg (split sep s) → includes seg s = true.
Proof.
  induction s as [| c s [IHhd IHin]]; simpl.
  - split; [done |]. by intros seg [<- | []].
  - destruct (Ascii.eqb c sep) eqn:Ec; simpl.
    + split; [done |]. intros seg [<- | Hin].
      * done.
      * rewrite (IHin seg Hin). apply orb_true_r.
    + pose proof (split_nonempty sep s) as Hne.
      destruct (split sep s) as [| w ws]; [done |]. simpl in *.
      split; [by rewrite Ascii.eqb_refl |].
      intros seg [<- | Hin].
      * simpl. by rewrite Ascii.eqb_refl, IHhd.
      * rewrite (IHin seg (or_intror Hin)). apply orb_true_r.
Qed.


Lemma truthy_Some s : truthy (Some s) = true ↔ s ≠ "".
Proof.
  simpl. rewrite negb_true_iff. apply String.eqb_neq.
Qed.

End JsFacts.

(** ** The file-system model *)
Module FsFacts.
Import Fs.

Lemma incomparable_sym p q : incomparable p q → incomparable q p.
Proof. intros [H1 H2]; split; assumption. Qed.

Lemma incomparable_app_r p q r : incomparable p q → incomparable p (q ++ r).
Proof.
  intros [H1 H2]; split.
  - intros H.
    destruct (prefix_weak_total p q (q ++ r)) as [H' | H']; try tauto.
    apply prefix_app_r. reflexivity.
  - intros H. apply H2. etrans; [| exact H]. apply prefix_app_r. reflexivity.
Qed.

Lemma eqb_sym_false (a b : string) : String.eqb a b = false → String.eqb b a = false.
Proof. rewrite !String.eqb_neq. congruence. Qed.

Section Assoc.
Context {A : Type}.
Implicit Types (l : list (string * A)) (k : string) (v : A).

Lemma assoc_set_eq k v l : assoc k (assoc_set k v l) = Some v.
Proof.
  induction l as [| [k' v'] l IH]; simpl.
  - by rewrite String.eqb_refl.
  - destruct (String.eqb k k') eqn:E; simpl.
    + by rewrite String.eqb_refl.
    + by rewrite E.
Qed.

Lemma assoc_set_ne k k' v l : k ≠ k' → assoc k' (assoc_set k v l) = assoc k' l.
Proof.
  intros Hne. induction l as [| [k0 v0] l IH]; simpl.
  - apply String.eqb_neq in Hne. by rewrite (eqb_sym_false _ _ Hne).
  - destruct (String.eqb k k0) eqn:E; simpl.
    + apply String.eqb_eq in E. subst k0.
      assert (String.eqb k' k = false) as -> by (apply String.eqb_neq; congruence).
      done.
    + by rewrite IH.
Qed.


Lemma assoc_del_eq k l : assoc k (assoc_del k l) = None.
Proof.
  induction l as [| [k0 v0] l IH]; simpl; [done |].
  destruct (String.eqb k k0) eqn:E; simpl; [done |]. by rewrite E.
Qed.

Lemma assoc_del_ne k k' l : k ≠ k' → assoc k' (assoc_del k l) = assoc k' l.
Proof.
  intros Hne. induction l as [| [k0 v0] l IH]; simpl; [done |].
  destruct (String.eqb k k0) eqn:E; simpl.
  - apply String.eqb_eq in E. subst k0.
    assert (String.eqb k' k = false) as -> by (apply String.eqb_neq; congruence).
    done.
  - by rewrite IH.
Qed.

Lemma assoc_In_fst k v l : assoc k l = Some v → In k (map fst l).
Proof.
  induction l as [| [k0 v0] l IH]; simpl; [done |].
  destruct (String.eqb k k0) eqn:E.
  - apply String.eqb_eq in E. auto.
  - auto.
Qed.

Lemma In_fst_assoc k l : In k (map fst l) → is_Some (assoc k l).
Proof.
  induction l as [| [k0 v0] l IH]; simpl; [done |].
  destruct (String.eqb k k0) eqn:E; [eauto |].
  intros [-> | H]; [| auto]. by rewrite String.eqb_refl in E.
Qed.

End Assoc.

Lemma lookup_app n p q :
  lookup n (p ++ q) = match lookup n p with Some m => lookup m q | None => None end.
Proof.
  revert n. induction p as [| x p IH]; intros n; simpl; [done |].
  destruct n as [c m | es]; [done |].
  destruct (assoc x es); [apply IH | done].
Qed.

Lemma lookup_File_below c m q : q ≠ [] → lookup (File c m) q = None.
Proof. by destruct q. Qed.

(** *** mkdirSync *)

Lemma mkdir_p_frame p : ∀ n n' q,
  mkdir_p p n = Ok n' → ¬ q `prefix_of` p → lookup n' q = lookup n q.
Proof.
  induction p as [| x p IH]; intros n n' q Hm Hq.
  - destruct n; simpl in Hm; [done |]. by injection Hm as <-.
  - destruct q as [| y q]; [exfalso; apply Hq, prefix_nil |].
    destruct n as [c m | es]; simpl in Hm; [done |].
    destruct (mkdir_p p _) as [c' |] eqn:Hc; [| done].
    injection Hm as <-. simpl.
    destruct (decide (x = y)) as [-> | Hne].
    + rewrite assoc_set_eq.
      assert (¬ q `prefix_of` p) as Hq'.
      { intros H. apply Hq. by apply prefix_cons. }
      rewrite (IH _ _ q Hc Hq').
      destruct (assoc y es); [done |].
      destruct q; [exfalso; apply Hq', prefix_nil | done].
    + by rewrite assoc_set_ne.
Qed.

Lemma mkdir_p_creates p : ∀ n n',
  mkdir_p p n = Ok n' → ∃ es, lookup n' p = Some (Dir es).
Proof.
  induction p as [| x p IH]; intros n n' Hm.
  - destruct n; simpl in Hm; [done |]. injection Hm as <-. eauto.
  - destruct n as [c m | es]; simpl in Hm; [done |].
    destruct (mkdir_p p _) as [c' |] eqn:Hc; [| done].
    injection Hm as <-. simpl. rewrite assoc_set_eq. eauto.
Qed.


(** A directory creation never makes a file appear. *)
Lemma mkdir_p_File_inv p : ∀ n n' q c m,
  mkdir_p p n = Ok n' → lookup n' q = Some (File c m) → lookup n q = Some (File c m).
Proof.
  induction p as [| x p IH]; intros n n' q c m Hm Hl.
  - destruct n; simpl in Hm; [done |]. by injection Hm as <-.
  - destruct n as [c0 m0 | es]; simpl in Hm; [done |].
    destruct (mkdir_p p _) as [c' |] eqn:Hc; [| done].
    injection Hm as <-.
    destruct q as [| y q]; [done |]. simpl in *.
    destruct (decide (x = y)) as [-> | Hne].
    + rewrite assoc_set_eq in Hl.
      specialize (IH _ _ q c m Hc Hl).
      destruct (assoc y es); [done |]. by destruct q.
    + by rewrite assoc_set_ne in Hl.
Qed.

(** *** writeFileSync *)

Lemma writeFileSync_frame p d md : ∀ n n' q,
  writeFileSync p d md n = Ok n' → ¬ q `prefix_of` p → lookup n' q = lookup n q.
Proof.
  induction p as [| x p IH]; intros n n' q Hw Hq.
  - destruct q as [| y q]; [exfalso; apply Hq, prefix_nil |].
    destruct n; simpl in Hw; [| done]. by injection Hw as <-.
  - destruct q as [| y q]; [exfalso; apply Hq, prefix_nil |].
    destruct n as [c m | es]; simpl in Hw; [done |].
    assert (¬ x = y ∨ (x = y ∧ ¬ q `prefix_of` p)) as Hcase.
    { destruct (decide (x = y)) as [-> | ?]; [right | by left].
      split; [done |]. intros H; apply Hq. by apply prefix_cons. }
    destruct (assoc x es) as [c |] eqn:Ha.
    + destruct (writeFileSync p d md c) as [c' |] eqn:Hc; [| done].
      injection Hw as <-. simpl.
      destruct Hcase as [Hne | [-> Hq']].
      * by rewrite assoc_set_ne.
      * by rewrite assoc_set_eq, Ha, (IH _ _ q Hc Hq').
    + destruct p as [| z p]; [| done].
      injection Hw as <-. simpl.
      destruct Hcase as [Hne | [-> Hq']].
      * by rewrite assoc_set_ne.
      * rewrite assoc_set_eq, Ha.
        destruct q; [exfalso; apply Hq', prefix_nil | done].
Qed.


(** A write makes a file appear at its own path only. *)
Lemma writeFileSync_File_inv p d md : ∀ n n' q c m,
  writeFileSync p d md n = Ok n' → lookup n' q = Some (File c m) →
  lookup n q = Some (File c m) ∨ q = p.
Proof.
  induction p as [| x p IH]; intros n n' q c m Hw Hl.
  - destruct n; simpl in Hw; [| done]. injection Hw as <-.
    destruct q; [by right | done].
  - destruct n as [c0 m0 | es]; simpl in Hw; [done |].
    destruct (assoc x es) as [c1 |] eqn:Ha.
    + destruct (writeFileSync p d md c1) as [c' |] eqn:Hc; [| done].
      injection Hw as <-. destruct q as [| y q]; [done |]. simpl in *.
      destruct (decide (x = y)) as [-> | Hne].
      * rewrite assoc_set_eq in Hl. rewrite Ha.
        destruct (IH _ _ _ _ _ Hc Hl) as [H | ->]; [by left | by right].
      * rewrite assoc_set_ne in Hl by done. by left.
    + destruct p as [| z p]; [| done]. injection Hw as <-.
      destruct q as [| y q]; [done |]. simpl in *.
      destruct (decide (x = y)) as [-> | Hne].
      * rewrite assoc_set_eq in Hl. destruct q; [by right | done].
      * rewrite assoc_set_ne in Hl by done. by left.
Qed.

Lemma prefix_dirname (q p : path) : q `prefix_of` dirname p → q `prefix_of` p.
Proof.
  intros H. unfold dirname in H.
  destruct (decide (p = [])) as [-> | Hne]; [done |].
  rewrite (app_removelast_last "" Hne). by apply prefix_app_r.
Qed.

(** *** rmSync *)

Lemma rmSync_frame p : ∀ n q,
  incomparable p q → lookup (rmSync p n) q = lookup n q.
Proof.
  induction p as [| x p IH]; intros n q [H1 H2]; [done |].
  destruct q as [| y q]; [exfalso; apply H2, prefix_nil |].
  destruct n as [c m | es]; [done |]. simpl.
  destruct p as [| z p].
  - simpl. rewrite assoc_del_ne; [done |].
    intros ->. apply H1. apply prefix_cons, prefix_nil.
  - destruct (assoc x es) as [c |] eqn:Ha; [| done]. simpl.
    destruct (decide (x = y)) as [-> | Hne].
    + rewrite assoc_set_eq, Ha. apply IH. split.
      * intros H; apply H1. by apply prefix_cons.
      * intros H; apply H2. by apply prefix_cons.
    + by rewrite assoc_set_ne.
Qed.

Lemma rmSync_gone p : ∀ n q, p ≠ [] → lookup (rmSync p n) (p ++ q) = None.
Proof.
  induction p as [| x p IH]; intros n q Hp; [done |].
  destruct n as [c m | es]; [done |]. simpl.
  destruct p as [| z p].
  - simpl. by rewrite assoc_del_eq.
  - destruct (assoc x es) as [c |] eqn:Ha.
    + simpl. rewrite assoc_set_eq. by apply IH.
    + simpl. by rewrite Ha.
Qed.

(** *** put, renameSync, cpSync *)









End FsFacts.

(** ** Gateway token *)
Module TokenFacts.
Import Fs Token FsFacts JsFacts.

(** With none of the three variables set there is no override. *)
Lemma envTok_unset (env : gmap string string) :
  env !! "OPENCLAW_GATEWAY_TOKEN" = None →
  env !! "MOLTBOT_GATEWAY_TOKEN" = None →
  env !! "CLAWDBOT_GATEWAY_TOKEN" = None →
  envTok env = None.
Proof. intros H1 H2 H3. unfold envTok, envTrim. by rewrite H1, H2, H3. Qed.

(** An override wins over everything and nothing is written. *)
Lemma resolveGatewayToken_override env stateDir rnd fs t :
  envTok env = Some t → t ≠ "" →
  resolveGatewayToken env stateDir rnd fs = (t, fs).
Proof.
  intros He Ht. unfold resolveGatewayToken. rewrite He.
  apply truthy_Some in Ht as ->. done.
Qed.






End TokenFacts.

(** ** Command runner *)
Module RunnerFacts.
Import Runner JsFacts.

Section WithSpawn.
Variable spawn : string → list string → SpawnOptions → list ChildEvent.
Variable processEnv : gmap string string.
Variables STATE_DIR WORKSPACE_DIR : string.

Local Abbreviation runCmd := (Runner.runCmd spawn processEnv STATE_DIR WORKSPACE_DIR).
Local Abbreviation spawned cmd args opts :=
  (spawn cmd args {| cwd := cwd opts; env := childEnv processEnv STATE_DIR WORKSPACE_DIR |}).

Lemma resolve_settled v st : promise st ≠ Pending → resolve v st = st.
Proof. unfold resolve. by destruct (promise st). Qed.

Lemma onEvent_never_rejects st ev :
  (∀ reason, promise st ≠ Rejected reason) →
  ∀ reason, promise (onEvent st ev) ≠ Rejected reason.
Proof.
  intros H reason. destruct ev as [d | d | err | c]; simpl; try apply H.
  - unfold resolve; simpl. destruct (promise st) eqn:E; simpl; try done;
      exfalso; by eapply H.
  - unfold resolve. destruct (promise st) eqn:E; simpl; rewrite ?E; try done;
      exfalso; by eapply H.
Qed.

Lemma fold_never_rejects evs : ∀ st,
  (∀ reason, promise st ≠ Rejected reason) →
  ∀ reason, promise (fold_left onEvent evs st) ≠ Rejected reason.
Proof.
  induction evs as [| ev evs IH]; intros st H; simpl; [done |].
  apply IH. by apply onEvent_never_rejects.
Qed.

(** Once settled, the promise keeps its value. *)
Lemma fold_settled evs : ∀ st v,
  promise st = Fulfilled v → promise (fold_left onEvent evs st) = Fulfilled v.
Proof.
  induction evs as [| ev evs IH]; intros st v H; simpl; [done |].
  apply IH. destruct ev; simpl; try done; unfold resolve; simpl; by rewrite H.
Qed.

(** Data events only accumulate output. *)
Lemma fold_data pre : ∀ o,
  forallb isData pre = true →
  fold_left onEvent pre {| out := o; promise := Pending |}
    = {| out := o +:+ captured pre; promise := Pending |}.
Proof.
  induction pre as [| ev pre IH]; intros o H; simpl.
  - by rewrite append_nil_r.
  - apply andb_prop in H as [Hev Hpre].
    destruct ev; try done; simpl; rewrite (IH _ Hpre); by rewrite append_assoc.
Qed.

Lemma runCmd_first_terminal cmd args opts pre ev post :
  spawned cmd args opts = pre ++ ev :: post →
  forallb isData pre = true → isData ev = false →
  runCmd cmd args opts =
    promise (onEvent {| out := captured pre; promise := Pending |} ev).
Proof.
  intros Hs Hpre Hev. unfold Runner.runCmd. rewrite Hs, fold_left_app. simpl.
  rewrite (fold_data pre "" Hpre). simpl.
  destruct ev as [d | d | err | c]; try done; simpl; unfold resolve; simpl;
    by erewrite fold_settled.
Qed.

(** C6.  Totality and uniform result shape of the command runner.  The
    promise of [runCmd] never rejects, whatever the child does.  When the
    child's first terminal event is a close with an exit code, non-zero
    included, the promise fulfils with that code and the captured output;
    when it is a spawn error, the promise fulfils with the synthetic code
    127 (which is not 0) and the captured output followed by the text of
    the error. *)
Theorem runCmd_uniform_result cmd args opts pre ev post :
  spawned cmd args opts = pre ++ ev :: post →
  forallb isData pre = true → isData ev = false →
  (∀ reason, runCmd cmd args opts ≠ Rejected reason) ∧
  (∃ r, runCmd cmd args opts = Fulfilled r) ∧
  (∀ n, ev = CloseEvent (Some n) →
        runCmd cmd args opts = Fulfilled {| code := n; output := captured pre |}) ∧
  (∀ err, ev = ErrorEvent err →
        runCmd cmd args opts =
          Fulfilled {| code := 127;
                       output := captured pre +:+ LF +:+ "[spawn error] " +:+ err +:+ LF |}
        ∧ (127 ≠ 0)%Z).
Proof.
  intros Hs Hpre Hev.
  pose proof (runCmd_first_terminal cmd args opts pre ev post Hs Hpre Hev) as Hr.
  split; [| split; [| split]].
  - intros reason. unfold Runner.runCmd. by apply fold_never_rejects.
  - rewrite Hr. destruct ev; try done; simpl; eauto.
  - intros n ->. by rewrite Hr.
  - intros err ->. by rewrite Hr.
Qed.

(** C10.  A close event with a [null] exit code (the child was ended by a
    signal) settles the promise with exit code 0. *)
Theorem runCmd_null_code_is_zero cmd args opts pre post :
  spawned cmd args opts = pre ++ CloseEvent None :: post →
  forallb isData pre = true →
  runCmd cmd args opts = Fulfilled {| code := 0; output := captured pre |}.
Proof.
  intros Hs Hpre.
  by rewrite (runCmd_first_terminal cmd args opts pre _ post Hs Hpre eq_refl).
Qed.

(** An [env] passed in [opts] has no effect, and the six directory variables
    are always those of the wrapper. *)
Lemma runCmd_env cmd args opts opts' :
  cwd opts = cwd opts' → runCmd cmd args opts = runCmd cmd args opts'.
Proof. intros H. unfold Runner.runCmd. by rewrite H. Qed.

Lemma childEnv_state_dir :
  childEnv processEnv STATE_DIR WORKSPACE_DIR !! "OPENCLAW_STATE_DIR" = Some STATE_DIR.
Proof. unfold childEnv. by simplify_map_eq. Qed.

End WithSpawn.

Lemma runCmd_uniform_result_witness :
  runCmd spawn_exit3 ∅ "/data/.openclaw" "/data/workspace" "node" ["--version"] noOpts
    = Fulfilled {| code := 3; output := "ab" |}.
Proof.
  refine (proj1 (proj2 (proj2 (runCmd_uniform_result spawn_exit3 ∅ "/data/.openclaw"
            "/data/workspace" "node" ["--version"] noOpts
            [StdoutData "a"; StderrData "b"] (CloseEvent (Some 3%Z)) [] _ _ _))) 3%Z _);
    reflexivity.
Defined.

Example runCmd_missing_executable :
  runCmd spawn_missing ∅ "/data/.openclaw" "/data/workspace" "node" [] noOpts =
    Fulfilled {| code := 127;
                 output := LF +:+ "[spawn error] Error: spawn node ENOENT" +:+ LF |}.
Proof. reflexivity. Qed.

Lemma runCmd_null_code_is_zero_witness :
  runCmd spawn_killed ∅ "/data/.openclaw" "/data/workspace" "node" ["config"] noOpts
    = Fulfilled {| code := 0; output := "partial" |}.
Proof.
  apply (runCmd_null_code_is_zero spawn_killed ∅ "/data/.openclaw" "/data/workspace"
           "node" ["config"] noOpts [StdoutData "partial"] []);
    reflexivity.
Defined.

End RunnerFacts.

(** ** Readiness prober *)
Module ProberFacts.
Import Prober.

Lemma loop_returns env timeoutMs start : ∀ fuel now acc,
  (start + timeoutMs - now ≤ 250 * Z.of_nat fuel)%Z →
  ∃ r, loop env timeoutMs start (S fuel) now acc = Some r ∧
       loopPost env timeoutMs start now acc r.
Proof.
  induction fuel as [| fuel IH]; intros now acc Hfuel.
  - simpl. destruct (Z.ltb_spec (now - start) timeoutMs) as [Hlt | Hge]; [lia |].
    eexists; split; [done |]. exists false, []. simpl.
    rewrite app_nil_r. split; [done |]. split; [done |]. split; [done |].
    split; [lia |]. split; [by intros t [] |]. split; [lia | by intros t []].
  - cbn [loop]. destruct (Z.ltb_spec (now - start) timeoutMs) as [Hlt | Hge].
    + destruct (fetchAt env now) as [st | e] eqn:Hf.
      * eexists; split; [done |]. exists true, [Fetch now]. simpl.
        split; [done |]. split; [done |]. split; [done |]. split; [lia |]. split.
        -- intros t [[= <-] | []]. lia.
        -- exists now. split; [by left |]. unfold isResponse. by rewrite Hf.
      * set (now1 := (now + Z.max 0 (fetchTime env now))%Z).
        set (now2 := (now1 + 250 + Z.max 0 (timerLag env now1))%Z).
        destruct (IH now2 ((acc ++ [Fetch now]) ++ [Sleep 250])) as (r & Hr & Hpost);
          [subst now1 now2; lia |].
        exists r. split; [exact Hr |].
        destruct Hpost as (b & new & Hv & Ha & Hp & Hc & Ht & Hb).
        exists b, (Fetch now :: Sleep 250 :: new).
        split; [done |]. split; [by rewrite Ha, <- !app_assoc |].
        split; [simpl; by rewrite Hp |]. split; [subst now1 now2; lia |]. split.
        -- intros t [[= <-] | [[=] | Hin]]; [lia |].
           destruct (Ht t Hin). subst now1 now2. lia.
        -- destruct b.
           ++ destruct Hb as (t & Hin & Hresp). exists t. split; [| done].
              right. by right.
           ++ destruct Hb as [Hto Hall]. split; [done |].
              intros t [[= <-] | [[=] | Hin]]; [| by apply Hall].
              unfold isResponse. by rewrite Hf.
    + eexists; split; [done |]. exists false, []. simpl.
      rewrite app_nil_r. split; [done |]. split; [done |]. split; [done |].
      split; [lia |]. split; [by intros t [] |]. split; [lia | by intros t []].
Qed.

Lemma enoughFuel_enough timeoutMs :
  (timeoutMs ≤ 250 * Z.of_nat (Z.to_nat (timeoutMs / 250 + 1)))%Z.
Proof.
  pose proof (Z.div_mod timeoutMs 250 ltac:(lia)).
  pose proof (Z.mod_pos_bound timeoutMs 250 ltac:(lia)).
  destruct (Z.le_gt_cases 0 (timeoutMs / 250 + 1)); lia.
Qed.


Example waitForGatewayReady_late :
  waitForGatewayReady env_late None 0 =
    Some {| value := Ok true; clock := 790;
            actions := [Fetch 0; Sleep 250; Fetch 260; Sleep 250; Fetch 520; Sleep 250;
                        Fetch 780] |}.
Proof. reflexivity. Qed.

Example waitForGatewayReady_never :
  waitForGatewayReady env_never (Some 600%Z) 0 =
    Some {| value := Ok false; clock := 750;
            actions := [Fetch 0; Sleep 250; Fetch 250; Sleep 250; Fetch 500; Sleep 250] |}.
Proof. reflexivity. Qed.

End ProberFacts.

(** ** Process supervisor *)
Module SupervisorFacts.
Import Supervisor.

Lemma startGateway_frame s r s' :
  startGateway s = (r, s') →
  attempts s' = attempts s ∧ gatewayStarting s' = gatewayStarting s ∧
  waiting s' = waiting s ∧ returned s' = returned s ∧
  configured s' = configured s ∧ dirsCreatable s' = dirsCreatable s.
Proof.
  unfold startGateway.
  destruct (gatewayProc s); [intros [= <- <-]; tauto |].
  destruct (negb (configured s)); [intros [= <- <-]; tauto |].
  destruct (negb (dirsCreatable s)); intros [= <- <-]; simpl; tauto.
Qed.

Lemma inFlight_insert s a b x :
  inFlight (set_attempts (<[a := x]> (attempts s)) s) b →
  inFlight s a → inFlight s b.
Proof.
  intros [ph Hb] Ha. simpl in Hb.
  destruct (decide (a = b)) as [-> | Hne]; [done |].
  rewrite list_lookup_insert_ne in Hb by done. by exists ph.
Qed.

Lemma singleAttempt_initial cfg dirs : singleAttempt (initial cfg dirs).
Proof. intros a [ph H]. done. Qed.

Lemma singleAttempt_call s c : singleAttempt s → singleAttempt (ensureGatewayRunning c s).
Proof.
  intros Hinv. unfold ensureGatewayRunning.
  destruct (configured s); simpl; [| exact Hinv].
  destruct (gatewayProc s) eqn:Hp; [exact Hinv |].
  destruct (gatewayStarting s) as [a0 |] eqn:Hs.
  - rewrite Hs. exact Hinv.
  - destruct (startGateway s) as [r s'] eqn:Hsg.
    destruct (startGateway_frame _ _ _ Hsg) as (Ha & Hg & _).
    simpl. intros a [ph Hl]. simpl in *. rewrite Ha in *.
    destruct (decide (a = length (attempts s))) as [-> | Hne]; [done |].
    exfalso. apply lookup_app_Some in Hl as [Hl | [Hlen Hl]].
    + assert (gatewayStarting s = Some a) as E by (apply Hinv; by exists ph). congruence.
    + apply lookup_lt_Some in Hl. simpl in Hl. lia.
Qed.

Theorem singleAttempt_step s ev : singleAttempt s → singleAttempt (step s ev).
Proof.
  intros Hinv. destruct ev as [c | a | a ready | a | c | pid | | b | b]; simpl.
  - by apply singleAttempt_call.
  - destruct (attempts s !! a) as [[[[[] | e] | |] |] |] eqn:Ha; try exact Hinv.
    + intros b Hb. apply (Hinv b). eapply inFlight_insert; [exact Hb | by eexists].
    + intros b Hb. apply (Hinv b). eapply inFlight_insert; [exact Hb | by eexists].
  - destruct (attempts s !! a) as [[[| |] |] |] eqn:Ha; try exact Hinv.
    intros b Hb. apply (Hinv b). eapply inFlight_insert; [exact Hb | by eexists].
  - destruct (attempts s !! a) as [[[| | r] |] |] eqn:Ha; try exact Hinv.
    intros b [ph Hb]. simpl in *. exfalso.
    assert (gatewayStarting s = Some a) as Hsa by (apply Hinv; by eexists).
    destruct (decide (a = b)) as [-> | Hne].
    + rewrite list_lookup_insert_eq in Hb by (by eapply lookup_lt_Some). done.
    + rewrite list_lookup_insert_ne in Hb by done.
      assert (gatewayStarting s = Some b) by (apply Hinv; by eexists). congruence.
  - destruct (awaited c (waiting s)) as [a |]; [| exact Hinv].
    destruct (attempts s !! a) as [[| r] |]; exact Hinv.
  - destruct (pid <? spawned s)%nat; exact Hinv.
  - exact Hinv.
  - exact Hinv.
  - exact Hinv.
Qed.

Lemma singleAttempt_run evs : ∀ s, singleAttempt s → singleAttempt (run s evs).
Proof.
  induction evs as [| ev evs IH]; intros s H; [done |].
  apply IH. by apply singleAttempt_step.
Qed.

Lemma singleAttempt_unique s a b :
  singleAttempt s → inFlight s a → inFlight s b → a = b.
Proof. intros H Ha Hb. apply H in Ha, Hb. congruence. Qed.

Lemma noneInFlight_spec s a : noneInFlight s = true → ¬ inFlight s a.
Proof.
  unfold noneInFlight. rewrite forallb_forall. intros H [ph Ha].
  apply list_elem_of_lookup_2, list_elem_of_In, H in Ha. done.
Qed.

Lemma In_unwait c x w : In x (unwait c w) → In x w.
Proof.
  induction w as [| [c' a] w IH]; simpl; [done |].
  destruct (c =? c')%nat; simpl; [auto |]. intros [-> | H]; auto.
Qed.

(** One piece of any task, run while attempt [a] is in flight and not the
    [.finally] callback: nothing is spawned, [gatewayStarting] still holds
    [a], [a] is still in flight, and a caller that starts to wait waits
    for [a]. *)
Lemma step_open s a ev :
  singleAttempt s → gatewayStarting s = Some a → inFlight s a →
  isFinally ev = false →
  spawned (step s ev) = spawned s ∧
  gatewayStarting (step s ev) = Some a ∧
  inFlight (step s ev) a ∧
  (∀ c' a', In (c', a') (waiting (step s ev)) → In (c', a') (waiting s) ∨ a' = a).
Proof.
  intros Hinv Hs [ph Ha] Hev.
  assert (∀ b x, (∃ ph', x = InFlight ph') →
            ∃ ph', <[b := x]> (attempts s) !! a = Some (InFlight ph')) as Hupd.
  { intros b x [ph' ->]. destruct (decide (b = a)) as [-> | Hne].
    - eexists. apply list_lookup_insert_eq. by eapply lookup_lt_Some.
    - exists ph. by rewrite list_lookup_insert_ne. }
  assert (spawned s = spawned s ∧ gatewayStarting s = Some a ∧ inFlight s a ∧
          (∀ c' a', In (c', a') (waiting s) → In (c', a') (waiting s) ∨ a' = a))
    as Hsame by (split; [done |]; split; [done |]; split; [by exists ph | auto]).
  destruct ev as [c | b | b ready | b | c | pid | | v | v]; simpl in *; try done.
  - unfold ensureGatewayRunning.
    destruct (negb (configured s)); [exact Hsame |].
    destruct (gatewayProc s); [exact Hsame |].
    rewrite Hs. simpl. rewrite Hs. simpl.
    split; [done |]. split; [done |]. split; [by exists ph |].
    intros c' a' [[= <- <-] | H]; auto.
  - destruct (attempts s !! b) as [[[[[] | e] | |] |] |] eqn:Hb; try exact Hsame.
    + split; [done |]. split; [done |]. split; [apply Hupd; eauto | simpl; auto].
    + split; [done |]. split; [done |]. split; [apply Hupd; eauto | simpl; auto].
  - destruct (attempts s !! b) as [[[| |] |] |] eqn:Hb; try exact Hsame.
    split; [done |]. split; [done |]. split; [apply Hupd; eauto | simpl; auto].
  - destruct (awaited c (waiting s)) as [b |]; [| exact Hsame].
    destruct (attempts s !! b) as [[| r] |]; try exact Hsame.
    simpl. split; [done |]. split; [exact Hs |]. split; [by exists ph |].
    intros c' a' H. left. by eapply In_unwait.
  - destruct (pid <? spawned s)%nat; exact Hsame.
Qed.

Lemma run_open evs : ∀ s a,
  singleAttempt s → gatewayStarting s = Some a → inFlight s a →
  forallb (λ ev, negb (isFinally ev)) evs = true →
  spawned (run s evs) = spawned s ∧
  gatewayStarting (run s evs) = Some a ∧
  inFlight (run s evs) a ∧
  (∀ c' a', In (c', a') (waiting (run s evs)) → In (c', a') (waiting s) ∨ a' = a).
Proof.
  induction evs as [| ev evs IH]; intros s a Hinv Hs Ha Hevs; simpl.
  - auto.
  - simpl in Hevs. apply andb_prop in Hevs as [Hev Hevs].
    apply negb_true_iff in Hev.
    destruct (step_open s a ev Hinv Hs Ha Hev) as (Hsp & Hs' & Ha' & Hw).
    destruct (IH (step s ev) a (singleAttempt_step _ _ Hinv) Hs' Ha' Hevs)
      as (Hsp2 & Hs2 & Ha2 & Hw2).
    split; [congruence |]. split; [done |]. split; [done |].
    intros c' a' H. destruct (Hw2 c' a' H) as [H' | ->]; auto.
Qed.

(** The first call made while the backend is absent. *)
Lemma first_call s c :
  configured s = true → dirsCreatable s = true →
  gatewayProc s = None → gatewayStarting s = None →
  step s (Call c) =
    {| configured := true; dirsCreatable := true;
       gatewayProc := Some (spawned s);
       gatewayStarting := Some (length (attempts s));
       spawned := S (spawned s);
       attempts := attempts s ++ [InFlight (AwaitingStart (Ok tt))];
       waiting := (c, length (attempts s)) :: waiting s;
       returned := returned s |}.
Proof.
  intros Hc Hd Hp Hs. simpl. unfold ensureGatewayRunning, startGateway.
  rewrite Hc, Hp, Hs, Hd. simpl.
  unfold set_waiting, set_starting, set_attempts, set_spawned, set_proc. simpl.
  by rewrite Hc, Hd.
Qed.

Lemma forallb_take {A} (f : A → bool) (l : list A) : ∀ k,
  forallb f l = true → forallb f (take k l) = true.
Proof.
  induction l as [| x l IH]; intros [| k] H; simpl in *; try done.
  apply andb_prop in H as [-> H]. simpl. by apply IH.
Qed.

(** C1 (amended).  Single-flight startup.  While [isConfigured()] holds and
    the working directories can be created, take any N >= 1 calls of
    [ensureGatewayRunning] made while the backend is absent and before the
    startup attempt of the first one is over, interleaved in any way with
    the other pieces of the event loop (the [Call] events of [Call c :: evs]
    are the N calls).  At every moment of that run exactly one backend
    process has been spawned, at most one attempt is in flight, it is the
    one [gatewayStarting] holds, and every caller that has started to wait
    waits for this attempt. *)
Theorem single_flight_startup s c evs :
  configured s = true → dirsCreatable s = true →
  gatewayProc s = None → gatewayStarting s = None → noneInFlight s = true →
  forallb (λ ev, negb (isFinally ev)) evs = true →
  ∀ k, let sk := run (step s (Call c)) (take k evs) in
    spawned sk = S (spawned s) ∧
    (∀ a b, inFlight sk a → inFlight sk b → a = b) ∧
    gatewayStarting sk = Some (length (attempts s)) ∧
    inFlight sk (length (attempts s)) ∧
    (∀ c' a, In (c', a) (waiting sk) →
             In (c', a) (waiting s) ∨ a = length (attempts s)).
Proof.
  intros Hc Hd Hp Hs Hnone Hevs k sk.
  assert (singleAttempt s) as Hinv.
  { intros a Ha. by apply noneInFlight_spec in Ha. }
  pose proof (singleAttempt_step s (Call c) Hinv) as Hinv1.
  pose proof (first_call s c Hc Hd Hp Hs) as H1.
  pose proof (forallb_take _ _ k Hevs) as Hk.
  destruct (run_open (take k evs) (step s (Call c)) (length (attempts s)) Hinv1)
    as (Hsp & Hs' & Ha' & Hw); try done.
  - by rewrite H1.
  - rewrite H1. eexists. simpl. by apply list_lookup_middle.
  - subst sk. split; [rewrite Hsp; by rewrite H1 |].
    split; [| split; [done | split; [done |]]].
    + intros a b. apply singleAttempt_unique. by apply singleAttempt_run.
    + intros c' a H. destruct (Hw c' a H) as [Hin | ->]; [| by right].
      rewrite H1 in Hin. simpl in Hin. destruct Hin as [[= <- <-] | Hin]; auto.
Qed.

Lemma single_flight_startup_witness :
  spawned (run (initial true true)
             [Call 1; Call 2; ProcessGone 0; Call 3; StartAwaited 0; Call 4]) = 1 ∧
  waiting (run (initial true true)
             [Call 1; Call 2; ProcessGone 0; Call 3; StartAwaited 0; Call 4])
    = [(4, 0); (3, 0); (1, 0)].
Proof.
  split; [| reflexivity].
  exact (proj1 (single_flight_startup (initial true true) 1
                  [Call 2; ProcessGone 0; Call 3; StartAwaited 0; Call 4]
                  eq_refl eq_refl eq_refl eq_refl eq_refl eq_refl 5)).
Defined.

(** C1 as stated does not hold.  With the configuration absent, a call made
    while the backend is absent spawns nothing (N = 1); nor does it when a
    working directory cannot be created.  With the configuration present,
    the second of two concurrent calls finds the handle that [startGateway]
    has set already: it gets [{ ok: true }] at once and never awaits the
    attempt, which is still in flight and here ends with the readiness
    failure the first caller receives. *)
Lemma single_flight_as_stated_fails :
  spawned (run (initial false true) [Call 1]) = 0 ∧
  spawned (run (initial true false) [Call 1]) = 0 ∧
  (let s := run (initial true true) [Call 1; Call 2] in
   spawned s = 1 ∧ inFlight s 0 ∧ waiting s = [(1, 0)] ∧
   returned s = [(2, ResolvedOk)]) ∧
  returned (run (initial true true)
              [Call 1; Call 2; StartAwaited 0; ProbeDone 0 false; FinallyRuns 0;
               Resume 1])
    = [(1, RejectedWith notReady); (2, ResolvedOk)].
Proof.
  split; [reflexivity |]. split; [reflexivity |]. split; [| reflexivity].
  simpl. split; [reflexivity |]. split; [by eexists |]. split; reflexivity.
Qed.

(** C8.  NotConfigured fail-fast.  A call of [ensureGatewayRunning] made
    while [isConfigured()] is false settles at once with the failure
    [{ ok: false, reason: "not configured" }]; recording this result is the
    only change of state: nothing is spawned, no attempt is created, the
    handle and [gatewayStarting] are untouched.  [startGateway] itself, called
    without a handle, throws its not-configured error before any spawn. *)
Theorem not_configured_fail_fast s c :
  configured s = false →
  step s (Call c) = settle c (ResolvedNotOk "not configured") s ∧
  returned (step s (Call c)) = (c, ResolvedNotOk "not configured") :: returned s ∧
  spawned (step s (Call c)) = spawned s ∧
  gatewayProc (step s (Call c)) = gatewayProc s ∧
  gatewayStarting (step s (Call c)) = gatewayStarting s ∧
  attempts (step s (Call c)) = attempts s ∧
  waiting (step s (Call c)) = waiting s ∧
  (gatewayProc s = None →
   startGateway s = (Throw "Error: Gateway cannot start: not configured", s)).
Proof.
  intros Hc. simpl. unfold ensureGatewayRunning, startGateway. rewrite Hc. simpl.
  repeat split; try done. by intros ->.
Qed.

Lemma not_configured_fail_fast_witness :
  returned (run (initial false true) [Call 7]) = [(7, ResolvedNotOk "not configured")] ∧
  spawned (run (initial false true) [Call 7]) = 0.
Proof.
  pose proof (not_configured_fail_fast (initial false true) 7 eq_refl)
    as (_ & Hr & Hs & _).
  split; [exact Hr | exact Hs].
Defined.

(** *** A caller suspended on an attempt *)

Lemma occ_zero_awaited c w : occ c w = 0 → awaited c w = None.
Proof.
  induction w as [| [c' a] w IH]; simpl; [done |].
  destruct (c =? c')%nat; [done | auto].
Qed.

Lemma occ_unwait_same c w : occ c (unwait c w) = pred (occ c w).
Proof.
  induction w as [| [c' a] w IH]; simpl; [done |].
  destruct (c =? c')%nat eqn:E; simpl; [done |]. by rewrite E.
Qed.

Lemma occ_unwait_other c c' w : c ≠ c' → occ c (unwait c' w) = occ c w.
Proof.
  intros Hne. induction w as [| [c0 a] w IH]; simpl; [done |].
  destruct (c' =? c0)%nat eqn:E; simpl; [| by rewrite IH].
  apply Nat.eqb_eq in E. subst c0.
  by rewrite (proj2 (Nat.eqb_neq c c') Hne).
Qed.

Lemma awaited_unwait_other c c' w : c ≠ c' → awaited c (unwait c' w) = awaited c w.
Proof.
  intros Hne. induction w as [| [c0 a] w IH]; simpl; [done |].
  destruct (c' =? c0)%nat eqn:E; simpl; [| by rewrite IH].
  apply Nat.eqb_eq in E. subst c0.
  by rewrite (proj2 (Nat.eqb_neq c c') Hne).
Qed.

(** A settled attempt keeps its result. *)
Lemma settled_stable s ev a r :
  attempts s !! a = Some (Settled r) → attempts (step s ev) !! a = Some (Settled r).
Proof.
  intros Ha.
  assert (∀ b x ph, attempts s !! b = Some (InFlight ph) →
            <[b := x]> (attempts s) !! a = Some (Settled r)) as Hupd.
  { intros b x ph Hb. rewrite list_lookup_insert_ne; [done |]. congruence. }
  destruct ev as [c | b | b ready | b | c | pid | | v | v]; simpl; try done.
  - unfold ensureGatewayRunning.
    destruct (negb (configured s)); [done |].
    destruct (gatewayProc s); [done |].
    destruct (gatewayStarting s) as [a0 |] eqn:Hs; [by rewrite Hs |].
    destruct (startGateway s) as [r0 s'] eqn:Hsg.
    destruct (startGateway_frame _ _ _ Hsg) as (Hat & _).
    simpl. rewrite Hat. by apply lookup_app_l_Some.
  - destruct (attempts s !! b) as [[[[[] | e] | |] |] |] eqn:Hb; simpl; eauto.
  - destruct (attempts s !! b) as [[[| |] |] |] eqn:Hb; simpl; eauto.
  - destruct (attempts s !! b) as [[[| | r0] |] |] eqn:Hb; simpl; eauto.
  - destruct (awaited c (waiting s)) as [b |]; [| done].
    by destruct (attempts s !! b) as [[| r0] |].
  - by destruct (pid <? spawned s)%nat.
Qed.

Lemma served_step c a s ev :
  isCallOf c ev = false → served c a s → served c a (step s ev).
Proof.
  intros Hev Hserved.
  destruct ev as [c' | b | b ready | b | c' | pid | | v | v]; simpl in *.
  - (* another caller calls *)
    apply Nat.eqb_neq in Hev.
    assert (∀ o, served c a (settle c' o s)) as Hsettle.
    { intros o. destruct Hserved as [(Hw & Ho & Hr) | (Ho & r & Ha & Hin & Hall)].
      - left. simpl. split; [done |]. split; [done |]. intros [E | H]; auto.
      - right. simpl. split; [done |]. exists r. split; [done |].
        split; [by right |]. intros o' [[= -> ->] | H]; [done | auto]. }
    unfold ensureGatewayRunning.
    destruct (negb (configured s)); [apply Hsettle |].
    destruct (gatewayProc s); [apply Hsettle |].
    assert (∀ s1 a1, waiting s1 = waiting s → returned s1 = returned s →
              (∀ r, attempts s !! a = Some (Settled r) →
                    attempts s1 !! a = Some (Settled r)) →
              served c a (set_waiting ((c', a1) :: waiting s1) s1)) as Hadd.
    { intros s1 a1 Hw1 Hr1 Ha1.
      destruct Hserved as [(Hw & Ho & Hr) | (Ho & r & Ha & Hin & Hall)].
      - left. simpl. rewrite (proj2 (Nat.eqb_neq c c') Hev), Hw1, Hr1. done.
      - right. simpl. rewrite (proj2 (Nat.eqb_neq c c') Hev), Hw1, Hr1.
        split; [done |]. exists r. auto. }
    destruct (gatewayStarting s) as [a0 |] eqn:Hs.
    + rewrite Hs. by apply Hadd.
    + destruct (startGateway s) as [r0 s'] eqn:Hsg.
      destruct (startGateway_frame _ _ _ Hsg) as (Hat & _ & Hw' & Hr' & _).
      simpl. apply (Hadd (set_starting _ (set_attempts _ s'))); simpl; try done.
      intros r Ha. rewrite Hat. by apply lookup_app_l_Some.
  - pose proof (settled_stable s (StartAwaited b) a) as Hst. simpl in Hst.
    destruct (attempts s !! b) as [[[[[] | e] | |] |] |] eqn:Hb; try done;
      (destruct Hserved as [? | (Ho & r & Ha & Hin & Hall)]; [by left |];
       right; split; [done |]; exists r; split; [by apply Hst | done]).
  - pose proof (settled_stable s (ProbeDone b ready) a) as Hst. simpl in Hst.
    destruct (attempts s !! b) as [[[| |] |] |] eqn:Hb; try done.
    destruct Hserved as [? | (Ho & r & Ha & Hin & Hall)]; [by left |].
    right. split; [done |]. exists r. split; [by apply Hst | done].
  - pose proof (settled_stable s (FinallyRuns b) a) as Hst. simpl in Hst.
    destruct (attempts s !! b) as [[[| | r0] |] |] eqn:Hb; try done.
    destruct Hserved as [? | (Ho & r & Ha & Hin & Hall)]; [by left |].
    right. split; [done |]. exists r. split; [by apply Hst | done].
  - (* some caller resumes *)
    destruct (decide (c' = c)) as [-> | Hne].
    + destruct Hserved as [(Hw & Ho & Hr) | (Ho & r & Ha & Hin & Hall)].
      * rewrite Hw. destruct (attempts s !! a) as [[ph | r] |] eqn:Ha;
          [left; done | | left; done].
        right. simpl. rewrite occ_unwait_same, Ho. split; [done |].
        exists r. split; [done |]. split; [by left |].
        intros o [[= <-] | H]; [done |].
        exfalso. apply Hr. apply (in_map fst) in H. exact H.
      * rewrite (occ_zero_awaited _ _ Ho). right. eauto.
    + destruct (awaited c' (waiting s)) as [b |]; [| done].
      destruct (attempts s !! b) as [[ph | r0] |] eqn:Hb; try done.
      destruct Hserved as [(Hw & Ho & Hr) | (Ho & r & Ha & Hin & Hall)].
      * left. simpl. rewrite awaited_unwait_other, occ_unwait_other by done.
        split; [done |]. split; [done |]. intros [E | H]; auto.
      * right. simpl. rewrite occ_unwait_other by done. split; [done |].
        exists r. split; [done |]. split; [by right |].
        intros o [[= E1 E2] | H]; [done | auto].
  - by destruct (pid <? spawned s)%nat.
  - done.
  - done.
  - done.
Qed.

Lemma served_run c a evs : ∀ s,
  forallb (λ ev, negb (isCallOf c ev)) evs = true →
  served c a s → served c a (run s evs).
Proof.
  induction evs as [| ev evs IH]; intros s Hevs Hs; [done |].
  simpl in Hevs. apply andb_prop in Hevs as [Hev Hevs].
  apply negb_true_iff in Hev. simpl. apply IH; [done |]. by apply served_step.
Qed.

(** What the code does whenever a handle is recorded, an attempt in flight
    or not: the call succeeds at once. *)
Lemma call_with_handle s c h :
  configured s = true → gatewayProc s = Some h →
  step s (Call c) = settle c ResolvedOk s.
Proof.
  intros Hc Hp. simpl. unfold ensureGatewayRunning. by rewrite Hc, Hp.
Qed.

(** C4 (amended).  Contract of [ensureGatewayRunning] while
    [isConfigured()] holds.  If the backend is running (a handle is recorded
    and no attempt is in flight) the call settles at once with
    [{ ok: true }] and changes nothing else.  If an attempt is in flight and
    no handle is recorded, the call spawns nothing and waits for that very
    attempt; whatever the event loop does next, the caller is either still
    waiting for it or has been given its result and no other; and once the
    attempt has settled, resuming the caller gives it the attempt's result:
    [{ ok: true }] when the attempt succeeded, a rejection with the
    attempt's error when it failed. *)
Theorem ensureRunning_contract s c :
  configured s = true →
  (∀ h, gatewayProc s = Some h → gatewayStarting s = None →
        step s (Call c) = settle c ResolvedOk s) ∧
  (∀ a evs,
     gatewayProc s = None → gatewayStarting s = Some a →
     occ c (waiting s) = 0 → ¬ In c (map fst (returned s)) →
     forallb (λ ev, negb (isCallOf c ev)) evs = true →
     step s (Call c) = set_waiting ((c, a) :: waiting s) s ∧
     let s' := run (step s (Call c)) evs in
     served c a s' ∧
     ∀ r, attempts s' !! a = Some (Settled r) →
          In (c, outcomeOf r) (returned (step s' (Resume c))) ∧
          ∀ o, In (c, o) (returned (step s' (Resume c))) → o = outcomeOf r).
Proof.
  intros Hc. split.
  - intros h Hp _. by apply call_with_handle with (h := h).
  - intros a evs Hp Hs Ho Hr Hevs.
    assert (step s (Call c) = set_waiting ((c, a) :: waiting s) s) as H1.
    { simpl. unfold ensureGatewayRunning. rewrite Hc, Hp, Hs. simpl. by rewrite Hs. }
    split; [exact H1 |]. intros s'.
    assert (served c a (step s (Call c))) as Hserved1.
    { rewrite H1. left. simpl. rewrite Nat.eqb_refl, Ho. done. }
    pose proof (served_run c a evs _ Hevs Hserved1) as Hserved. fold s' in Hserved.
    split; [exact Hserved |]. intros r Ha.
    destruct Hserved as [(Hw & Ho' & Hr') | (Ho' & r' & Ha' & Hin & Hall)].
    + simpl. rewrite Hw, Ha. simpl. split; [by left |].
      intros o [[= <-] | H]; [done |].
      exfalso. apply Hr'. apply (in_map fst) in H. exact H.
    + simpl. rewrite (occ_zero_awaited _ _ Ho').
      rewrite Ha in Ha'. injection Ha' as <-. done.
Qed.

Lemma ensureRunning_contract_witness :
  In (2, RejectedWith notReady)
     (returned (run (initial true true)
                  [Call 1; ProcessGone 0; Call 2; StartAwaited 0; ProbeDone 0 false;
                   FinallyRuns 0; Resume 2])).
Proof.
  pose proof (ensureRunning_contract (run (initial true true) [Call 1; ProcessGone 0]) 2
                eq_refl) as [_ H].
  destruct (H 0 [StartAwaited 0; ProbeDone 0 false; FinallyRuns 0]
              eq_refl eq_refl eq_refl (fun F => F) eq_refl) as (_ & _ & Hr).
  exact (proj1 (Hr (Throw notReady) eq_refl)).
Defined.

(** C4 as stated does not hold.  A running backend whose config file has
    been deleted: the call returns the not-configured failure, not success.
    And a call made while the first attempt is in flight, with the handle
    that [startGateway] set: it returns [{ ok: true }] at once without
    waiting, although the attempt then fails. *)
Lemma ensureRunning_as_stated_fails :
  (let s := run (initial true true)
              [Call 1; StartAwaited 0; ProbeDone 0 true; FinallyRuns 0; Resume 1;
               ConfigChanged false] in
   gatewayProc s = Some 0 ∧ gatewayStarting s = None ∧
   returned s = [(1, ResolvedOk)] ∧
   returned (step s (Call 2)) = [(2, ResolvedNotOk "not configured"); (1, ResolvedOk)]) ∧
  (let s := run (initial true true) [Call 1] in
   gatewayStarting s = Some 0 ∧ inFlight s 0 ∧
   returned (step s (Call 2)) = [(2, ResolvedOk)] ∧
   waiting (step s (Call 2)) = [(1, 0)] ∧
   attempts (run (step s (Call 2)) [StartAwaited 0; ProbeDone 0 false; FinallyRuns 0])
     = [Settled (Throw notReady)]).
Proof.
  split.
  - simpl. repeat split; reflexivity.
  - simpl. split; [reflexivity |]. split; [by eexists |]. repeat split; reflexivity.
Qed.

End SupervisorFacts.

(** ** State archive manager: import *)
Module ArchiveFacts.
Import Fs Archive FsFacts JsFacts.

(** *** The filter and where entries land *)

(** An entry path with a [..] segment is rejected by the filter. *)
Lemma filter_rejects_dotdot (entryPath : string) :
  In ".." (Js.split "/" entryPath) → filter entryPath = false.
Proof.
  intros Hin. unfold filter.
  by rewrite (proj2 (split_segments "/" entryPath) ".." Hin).
Qed.

Lemma resolveSegs_under segs : ∀ base,
  ¬ In ".." segs → base `prefix_of` resolveSegs base segs.
Proof.
  induction segs as [| seg rest IH]; intros base Hno; simpl; [done |].
  assert (¬ In ".." rest) as Hrest by (intros H; apply Hno; by right).
  destruct (String.eqb seg "" || String.eqb seg "."); [by apply IH |].
  destruct (String.eqb seg "..") eqn:E.
  - apply String.eqb_eq in E. exfalso. apply Hno. by left.
  - etrans; [| by apply IH]. by apply prefix_app_r.
Qed.

(** An entry that passes the filter lands below [cwd]. *)
Lemma entryTarget_under cwd entryPath :
  filter entryPath = true → cwd `prefix_of` entryTarget cwd entryPath.
Proof.
  intros Hf. apply resolveSegs_under. intros Hin.
  by rewrite (filter_rejects_dotdot _ Hin) in Hf.
Qed.

Example filter_etc_passwd :
  filter "../../etc/passwd" = false ∧
  entryTarget ["tmp"; "openclaw-import-00ff"; "extracted"] "../../etc/passwd"
    = ["tmp"; "etc"; "passwd"].
Proof. split; reflexivity. Qed.

(** *** What a computation leaves alone *)

Section Preserve.
Context (R : World → World → Prop).
Hypothesis R_refl : ∀ w, R w w.
Hypothesis R_trans : ∀ w1 w2 w3, R w1 w2 → R w2 w3 → R w1 w3.

Lemma preserves_ret {A} (a : A) : preserves R (ret a).
Proof. intros w r w' [= _ <-]. apply R_refl. Qed.

Lemma preserves_raise {A} (e : string) : preserves R (fun w => (@Throw A e, w)).
Proof. intros w r w' [= _ <-]. apply R_refl. Qed.

Lemma preserves_bind {A B} (m : M A) (k : A → M B) :
  preserves R m → (∀ a, preserves R (k a)) → preserves R (bind m k).
Proof.
  intros Hm Hk w r w' H. unfold bind in H.
  destruct (m w) as [[a | e] w1] eqn:E.
  - eapply R_trans; [by eapply Hm | by eapply Hk].
  - injection H as _ <-. by eapply Hm.
Qed.


Lemma preserves_ignoreErrors (body : M unit) :
  preserves R body → preserves R (ignoreErrors body).
Proof.
  intros Hb w r w' H. unfold ignoreErrors in H.
  destruct (body w) as [rb w1] eqn:Eb. injection H as _ <-. by eapply Hb.
Qed.

Lemma preserves_readFs {A} (f : node → result A) : preserves R (readFs f).
Proof. intros w r w' [= _ <-]. apply R_refl. Qed.

Lemma preserves_liftFs (f : node → result node) :
  (∀ w n', f (fs w) = Ok n' → R w (set_fs n' w)) → preserves R (liftFs f).
Proof.
  intros Hf w r w' H. unfold liftFs in H.
  destruct (f (fs w)) as [n' | e] eqn:E; injection H as _ <-; [by apply Hf | apply R_refl].
Qed.

End Preserve.

Lemma keeps_refl q w : keeps q w w.
Proof. done. Qed.

Lemma keeps_trans q w1 w2 w3 : keeps q w1 w2 → keeps q w2 w3 → keeps q w1 w3.
Proof. unfold keeps. congruence. Qed.

Lemma quiet_refl w : quiet w w.
Proof. done. Qed.

Lemma quiet_trans w1 w2 w3 : quiet w1 w2 → quiet w2 w3 → quiet w1 w3.
Proof. unfold quiet. intros [] []. split; congruence. Qed.

Lemma filesWithin_refl d w : filesWithin d w w.
Proof. intros q c m H. by left. Qed.

Lemma filesWithin_trans d w1 w2 w3 :
  filesWithin d w1 w2 → filesWithin d w2 w3 → filesWithin d w1 w3.
Proof.
  intros H12 H23 q c m H. destruct (H23 q c m H) as [H' | H']; [| by right].
  by apply H12.
Qed.

Create HintDb frame discriminated.
#[local] Hint Resolve keeps_refl keeps_trans quiet_refl quiet_trans
  filesWithin_refl filesWithin_trans : frame.

Lemma quiet_liftFs f : preserves quiet (liftFs f).
Proof. apply preserves_liftFs; [done | done]. Qed.

Lemma quiet_readFs {A} (f : node → result A) : preserves quiet (readFs f).
Proof. by apply preserves_readFs. Qed.

(** *** Extraction stays below [cwd] *)

Lemma extractEntry_keeps cwd q e :
  incomparable cwd q → preserves (keeps q) (extractEntry cwd e).
Proof.
  intros Hinc. unfold extractEntry.
  destruct (filter (entryPath e)) eqn:Hf; [| apply preserves_ret; auto with frame].
  pose proof (entryTarget_under cwd _ Hf) as [k Hk].
  assert (incomparable (entryTarget cwd (entryPath e)) q) as Ht.
  { rewrite Hk. apply incomparable_sym, incomparable_app_r, incomparable_sym, Hinc. }
  destruct (entryBody e) as [data |].
  - apply preserves_bind; [apply keeps_trans | |].
    + apply preserves_liftFs; [apply keeps_refl |]. intros w n' Hm.
      apply (mkdir_p_frame _ _ _ _ Hm). intros Hq%prefix_dirname. by destruct Ht.
    + intros _. apply preserves_liftFs; [apply keeps_refl |]. intros w n' Hw.
      apply (writeFileSync_frame _ _ _ _ _ _ Hw). by destruct Ht.
  - apply preserves_liftFs; [apply keeps_refl |]. intros w n' Hm.
    apply (mkdir_p_frame _ _ _ _ Hm). by destruct Ht.
Qed.

Lemma extractEntry_filesWithin cwd e :
  preserves (filesWithin cwd) (extractEntry cwd e).
Proof.
  unfold extractEntry.
  destruct (filter (entryPath e)) eqn:Hf; [| apply preserves_ret; auto with frame].
  pose proof (entryTarget_under cwd _ Hf) as Hunder.
  destruct (entryBody e) as [data |].
  - apply preserves_bind; [apply filesWithin_trans | |].
    + apply preserves_liftFs; [apply filesWithin_refl |]. intros w n' Hm q c m Hl.
      left. by eapply mkdir_p_File_inv.
    + intros _. apply preserves_liftFs; [apply filesWithin_refl |].
      intros w n' Hw q c m Hl.
      destruct (writeFileSync_File_inv _ _ _ _ _ _ _ _ Hw Hl) as [H | ->]; auto.
  - apply preserves_liftFs; [apply filesWithin_refl |]. intros w n' Hm q c m Hl.
    left. by eapply mkdir_p_File_inv.
Qed.

Lemma extractEntry_quiet cwd e : preserves quiet (extractEntry cwd e).
Proof.
  unfold extractEntry. destruct (filter (entryPath e)); [| by apply preserves_ret].
  destruct (entryBody e); [| apply quiet_liftFs].
  apply preserves_bind; [apply quiet_trans | apply quiet_liftFs |].
  intros _. apply quiet_liftFs.
Qed.

Lemma extractAll_preserves R cwd entries :
  (∀ w, R w w) → (∀ w1 w2 w3, R w1 w2 → R w2 w3 → R w1 w3) →
  (∀ e, preserves R (extractEntry cwd e)) →
  preserves R (extractAll cwd entries).
Proof.
  intros Hrefl Htrans He. induction entries as [| e rest IH]; simpl.
  - by apply preserves_ret.
  - apply preserves_bind; auto.
Qed.

Section WithTar.
Variable untar : string → option (list TarEntry).

Lemma tar_x_preserves R file cwd :
  (∀ w, R w w) → (∀ w1 w2 w3, R w1 w2 → R w2 w3 → R w1 w3) →
  (∀ e, preserves R (extractEntry cwd e)) →
  preserves R (tar_x untar file cwd).
Proof.
  intros Hrefl Htrans He. unfold tar_x.
  apply preserves_bind; [done | by apply preserves_readFs |].
  intros bytes. destruct (untar bytes) as [entries |].
  - by apply extractAll_preserves.
  - by apply preserves_raise.
Qed.

(** C2.  Path-traversal safety of the import.  An entry whose path has a
    [..] segment is rejected by the filter, and extracting it changes
    nothing.  For every archive, whatever [tar.x] does and however it ends:
    every file found afterwards that was not there before (or has changed)
    lies below the extraction directory, hence in the staging directory;
    and every tree beside the staging directory is as it was.  The entry
    [../../etc/passwd] is one of the rejected. *)
Theorem import_path_traversal_safe (cfg : Config) (d : Draw) (w : World) :
  (∀ e, In ".." (Js.split "/" (entryPath e)) →
        filter (entryPath e) = false ∧
        extractEntry (extractDir cfg d) e w = (Ok tt, w)) ∧
  filter "../../etc/passwd" = false ∧
  let w' := (tar_x untar (tarPath cfg d) (extractDir cfg d) w).2 in
  (∀ q c m, lookup (fs w') q = Some (File c m) →
            lookup (fs w) q = Some (File c m) ∨ stagingDir cfg d `prefix_of` q) ∧
  (∀ q, incomparable (stagingDir cfg d) q → lookup (fs w') q = lookup (fs w) q).
Proof.
  split; [| split; [reflexivity |]].
  - intros e Hin. pose proof (filter_rejects_dotdot _ Hin) as Hf.
    split; [done |]. unfold extractEntry. by rewrite Hf.
  - intros w'.
    destruct (tar_x untar (tarPath cfg d) (extractDir cfg d) w) as [r w1] eqn:E.
    subst w'. simpl. split.
    + intros q c m Hl.
      assert (filesWithin (extractDir cfg d) w w1) as Hfw.
      { eapply (tar_x_preserves (filesWithin (extractDir cfg d))); eauto with frame.
        apply extractEntry_filesWithin. }
      destruct (Hfw q c m Hl) as [H | H]; [by left | right].
      etrans; [| exact H]. unfold extractDir. by apply prefix_app_r.
    + intros q Hinc.
      eapply (tar_x_preserves (keeps q)); eauto with frame.
      intros e. apply extractEntry_keeps. unfold extractDir.
      by apply incomparable_sym, incomparable_app_r, incomparable_sym.
Qed.

(** *** The staging phase touches the staging directory only *)

Lemma apart_spec p q : apart p q = true ↔ incomparable p q.
Proof.
  unfold apart, incomparable. rewrite andb_true_iff, !negb_true_iff.
  unfold isPrefix. by rewrite !bool_decide_eq_false.
Qed.

Lemma incomparable_below p q r : incomparable p q → incomparable (p ++ r) q.
Proof. intros H. by apply incomparable_sym, incomparable_app_r, incomparable_sym. Qed.

Lemma mkdirStaging_keeps cfg d q :
  incomparable (stagingDir cfg d) q →
  preserves (keeps q) (liftFs (mkdir_p (stagingDir cfg d))).
Proof.
  intros [_ Hq]. apply preserves_liftFs; [apply keeps_refl |]. intros w n' Hm.
  by apply (mkdir_p_frame _ _ _ _ Hm).
Qed.

Lemma stage_keeps cfg d u q :
  incomparable (stagingDir cfg d) q → preserves (keeps q) (stage untar cfg d u).
Proof.
  intros Hinc. unfold stage.
  apply preserves_bind; [apply keeps_trans | |].
  { apply preserves_liftFs; [apply keeps_refl |]. intros w n' Hw.
    apply (writeFileSync_frame _ _ _ _ _ _ Hw).
    by destruct (incomparable_below _ _ ["backup.tar.gz"] Hinc). }
  intros _. apply preserves_bind; [apply keeps_trans | |].
  { apply preserves_liftFs; [apply keeps_refl |]. intros w n' Hm.
    apply (mkdir_p_frame _ _ _ _ Hm).
    by destruct (incomparable_below _ _ ["extracted"] Hinc). }
  intros _. apply preserves_bind; [apply keeps_trans | |].
  { apply tar_x_preserves; [apply keeps_refl | apply keeps_trans |].
    intros e. apply extractEntry_keeps. by apply incomparable_below. }
  intros _. apply preserves_readFs, keeps_refl.
Qed.

Lemma stage_quiet cfg d u : preserves quiet (stage untar cfg d u).
Proof.
  unfold stage.
  apply preserves_bind; [apply quiet_trans | apply quiet_liftFs |].
  intros _. apply preserves_bind; [apply quiet_trans | apply quiet_liftFs |].
  intros _. apply preserves_bind; [apply quiet_trans | |].
  { apply tar_x_preserves; [apply quiet_refl | apply quiet_trans |].
    apply extractEntry_quiet. }
  intros _. apply quiet_readFs.
Qed.

Lemma cleanup_keeps cfg d q :
  incomparable (stagingDir cfg d) q → preserves (keeps q) (cleanup cfg d).
Proof.
  intros Hinc. unfold cleanup. apply preserves_ignoreErrors, preserves_liftFs; [apply keeps_refl |].
  intros w n' [= <-]. by apply rmSync_frame.
Qed.

Lemma cleanup_quiet cfg d : preserves quiet (cleanup cfg d).
Proof. unfold cleanup. apply preserves_ignoreErrors, quiet_liftFs. Qed.

Lemma staged_keeps cfg d u q w r w1 :
  incomparable (stagingDir cfg d) q →
  staged untar cfg d u w = (r, w1) → keeps q w w1 ∧ quiet w w1.
Proof.
  intros Hinc H. unfold staged in H. split.
  - revert H. apply preserves_bind; [apply keeps_trans | by apply mkdirStaging_keeps |].
    intros _. by apply stage_keeps.
  - revert H. apply preserves_bind; [apply quiet_trans | apply quiet_liftFs |].
    intros _. apply stage_quiet.
Qed.

Lemma includesName_In names x : includesName names x = true ↔ In x names.
Proof.
  unfold includesName. rewrite existsb_exists. split.
  - intros (y & Hin & E). apply String.eqb_eq in E. by subst.
  - intros Hin. exists x. split; [done |]. apply String.eqb_refl.
Qed.

Lemma includesName_false names x : ¬ In x names → includesName names x = false.
Proof.
  intros H. destruct (includesName names x) eqn:E; [| done].
  by apply includesName_In in E.
Qed.

Lemma cleanup_Ok cfg d w : ∃ w', cleanup cfg d w = (Ok tt, w').
Proof. unfold cleanup, ignoreErrors. destruct (liftFs _ w). eauto. Qed.

(** How the handler ends when the staging phase has thrown. *)
Lemma importHandler_staging_throws cfg d u w e w1 :
  staged untar cfg d u w = (Throw e, w1) →
  ∃ w', importHandler untar cfg d (Some u) w =
          ({| status := 500; payload := Failure ("Import failed: " +:+ e) |}, w') ∧
        (w' = w1 ∨ cleanup cfg d w1 = (Ok tt, w')).
Proof.
  intros H. unfold staged, bind in H. unfold importHandler, importBody, bind.
  destruct (liftFs (mkdir_p (stagingDir cfg d)) w) as [[[] | e0] wa] eqn:Ea.
  - unfold tryFinally, bind. rewrite H.
    destruct (cleanup_Ok cfg d w1) as [w' Hc]. rewrite Hc.
    exists w'. split; [done |]. by right.
  - injection H as <- <-. exists wa. split; [done |]. by left.
Qed.

(** How the handler ends when the staging phase has listed [contents]. *)
Lemma importHandler_staged cfg d u w contents w1 :
  staged untar cfg d u w = (Ok contents, w1) →
  importHandler untar cfg d (Some u) w =
    match tryFinally (validateAndRestore cfg d contents) (cleanup cfg d) w1 with
    | (Ok resp, w') => (resp, w')
    | (Throw err, w') =>
        ({| status := 500; payload := Failure ("Import failed: " +:+ err) |}, w')
    end.
Proof.
  intros H. unfold staged, bind in H. unfold importHandler, importBody, bind.
  destruct (liftFs (mkdir_p (stagingDir cfg d)) w) as [[[] | e] wa] eqn:Ea; [| done].
  unfold tryFinally, bind. rewrite H. done.
Qed.

(** C3.  Import validation atomicity.  When the extracted top level holds
    none of the recognized state-directory names (and also when the staging
    phase fails before it can be listed), the import answers with a failure
    (for the missing names: the 400 "Invalid backup" answer) and has
    neither touched the live state directory, whose whole tree is as it was,
    nor any other tree beside the staging directory, nor signalled or
    dropped the backend process, nor taken any other action on the
    outside. *)
Theorem import_invalid_archive_atomic cfg d u w r w1 :
  apart (stagingDir cfg d) (STATE_DIR cfg) = true →
  staged untar cfg d u w = (r, w1) →
  (∀ contents, r = Ok contents →
     ∀ name, In name [".openclaw"; ".clawdbot"; ".moltbot"] → ¬ In name contents) →
  let resp := (importHandler untar cfg d (Some u) w).1 in
  let w' := (importHandler untar cfg d (Some u) w).2 in
  (∃ error, payload resp = Failure error) ∧
  (∀ contents, r = Ok contents → resp = invalidBackup) ∧
  lookup (fs w') (STATE_DIR cfg) = lookup (fs w) (STATE_DIR cfg) ∧
  (∀ q, incomparable (stagingDir cfg d) q → lookup (fs w') q = lookup (fs w) q) ∧
  gatewayProc w' = gatewayProc w ∧
  effects w' = effects w.
Proof.
  intros Hap%apart_spec Hst Hnone resp w'.
  assert (∃ w2, importHandler untar cfg d (Some u) w = (resp, w2) ∧
                (∃ error, payload resp = Failure error) ∧
                (∀ contents, r = Ok contents → resp = invalidBackup) ∧
                (w2 = w1 ∨ cleanup cfg d w1 = (Ok tt, w2))) as (w2 & Hh & Hfail & Hinv & Hw2).
  { destruct r as [contents | e].
    - (* the listing has no recognized name *)
      pose proof (importHandler_staged cfg d u w contents w1 Hst) as Hh.
      assert (validateAndRestore cfg d contents = ret invalidBackup) as Hv.
      { unfold validateAndRestore.
        rewrite (includesName_false contents ".openclaw"),
          (includesName_false contents ".clawdbot"),
          (includesName_false contents ".moltbot");
          [done | | |]; apply (Hnone contents eq_refl); simpl; auto. }
      rewrite Hv in Hh. unfold tryFinally, ret in Hh.
      destruct (cleanup_Ok cfg d w1) as [w2 Hc]. rewrite Hc in Hh.
      exists w2. subst resp. rewrite Hh. simpl.
      split; [done |]. split; [by eexists |]. split; [done | by right].
    - (* the staging phase has thrown *)
      destruct (importHandler_staging_throws cfg d u w e w1 Hst) as (w2 & Hh & Hw2).
      exists w2. subst resp. rewrite Hh. simpl.
      split; [done |]. split; [by eexists |]. split; [done | exact Hw2]. }
  subst w'. rewrite Hh. simpl.
  assert (∀ q, incomparable (stagingDir cfg d) q → lookup (fs w2) q = lookup (fs w) q)
    as Hframe.
  { intros q Hq. destruct (staged_keeps cfg d u q w r w1 Hq Hst) as [Hk1 _].
    destruct Hw2 as [-> | Hc]; [exact Hk1 |].
    pose proof (cleanup_keeps cfg d q Hq _ _ _ Hc) as Hk2.
    unfold keeps in *. congruence. }
  assert (quiet w w2) as [Hproc Heff].
  { destruct (staged_keeps cfg d u _ w r w1 Hap Hst) as [_ Hq1].
    destruct Hw2 as [-> | Hc]; [exact Hq1 |].
    eapply quiet_trans; [exact Hq1 |]. by apply (cleanup_quiet cfg d _ _ _ Hc). }
  split; [done |]. split; [done |]. split; [by apply Hframe |].
  split; [exact Hframe |]. split; [exact Hproc | exact Heff].
Qed.

(** *** Moving the live directories aside *)

Lemma bind_inv {A B} (m : M A) (k : A → M B) w r w' :
  bind m k w = (r, w') →
  (∃ a w1, m w = (Ok a, w1) ∧ k a w1 = (r, w')) ∨
  (∃ e, m w = (Throw e, w') ∧ r = Throw e).
Proof.
  unfold bind. destruct (m w) as [[a | e] w1]; intros H.
  - left. eauto.
  - right. injection H as <- <-. eauto.
Qed.



















End WithTar.

(** *** A worked example *)

Example import_evil_outcome :
  importHandler untar_sample cfg_sample draw_sample (Some upload_evil) world_sample
    = (invalidBackup, world_sample).
Proof. reflexivity. Qed.

Example import_good_outcome :
  let r := importHandler untar_sample cfg_sample draw_sample (Some upload_good) world_sample in
  status r.1 = 200%Z ∧
  gatewayProc r.2 = None ∧
  fs r.2 =
    Dir [("tmp", Dir []);
         ("etc", Dir [("passwd", File "orig" 420)]);
         ("data",
          Dir [(".openclaw.bak-2026-01-01T00-00-00-000Z", oldState);
               ("workspace.bak-2026-01-01T00-00-00-000Z", oldWorkspace);
               (".openclaw", Dir [("openclaw.json", File "{new}" 420)]);
               ("workspace", Dir [("notes.md", File "hi" 420)])])].
Proof. repeat split; reflexivity. Qed.

Lemma import_invalid_archive_atomic_witness :
  let r := importHandler untar_sample cfg_sample draw_sample (Some upload_evil) world_sample in
  r.1 = invalidBackup ∧
  lookup (fs r.2) ["data"; ".openclaw"] = Some oldState ∧
  gatewayProc r.2 = Some 3 ∧
  effects r.2 = [].
Proof.
  intros r.
  assert (∀ contents, @Ok (list string) ["notes.txt"] = Ok contents →
            ∀ name, In name [".openclaw"; ".clawdbot"; ".moltbot"] → ¬ In name contents)
    as Hnone.
  { intros contents [= <-] name [<- | [<- | [<- | []]]] [H | []]; discriminate H. }
  destruct (import_invalid_archive_atomic untar_sample cfg_sample draw_sample upload_evil
              world_sample (Ok ["notes.txt"]) _ eq_refl eq_refl Hnone)
    as (_ & Hresp & Hstate & _ & Hproc & Heff).
  split; [exact (Hresp _ eq_refl) |]. split; [exact Hstate |].
  split; [exact Hproc | exact Heff].
Defined.


End ArchiveFacts.

(** ** Settings: state directory and config file *)
Module SettingsFacts.
Import Js Fs FsFacts Settings.

Lemma existsSync_below fs p q : existsSync fs p = false → existsSync fs (p ++ q) = false.
Proof.
  unfold existsSync. rewrite lookup_app. by destruct (lookup fs p).
Qed.

Lemma existsSync_created p fs fs' : mkdir_p p fs = Ok fs' → existsSync fs' p = true.
Proof.
  intros H. unfold existsSync. by destruct (mkdir_p_creates _ _ _ H) as [es ->].
Qed.

Lemma existsSync_mkdir_frame p q fs fs' :
  mkdir_p p fs = Ok fs' → ¬ q `prefix_of` p → existsSync fs' q = existsSync fs q.
Proof.
  intros H Hq. unfold existsSync. by rewrite (mkdir_p_frame _ _ _ _ H Hq).
Qed.

Lemma data_prefix (home : path) :
  ["data"] `prefix_of` home ++ [".openclaw"] → ["data"] `prefix_of` home.
Proof.
  intros [k Hk]. destruct home as [| x home]; [by injection Hk |].
  injection Hk as -> _. by exists home.
Qed.

(** X1: the state directory is detected anew at every start of the wrapper,
    and the wrapper creates the directory it chose.  Once that has
    succeeded, the next detection over the new file system chooses the same
    directory, provided the home directory is not inside [/data] (or is
    [/data] itself). *)
Theorem autoDetectStateDir_stable env (home : path) fs fs' :
  mkdir_p (autoDetectStateDir env home fs) fs = Ok fs' →
  (¬ ["data"] `prefix_of` home ∨ home = ["data"]) →
  autoDetectStateDir env home fs' = autoDetectStateDir env home fs.
Proof.
  unfold autoDetectStateDir.
  destruct (truthy _); [done |].
  destruct (existsSync fs openclawDir) eqn:Ho.
  { intros Hm _. by rewrite (existsSync_created _ _ _ Hm). }
  destruct (existsSync fs clawdbotDir) eqn:Hc.
  { intros Hm _.
    rewrite (existsSync_mkdir_frame _ openclawDir _ _ Hm), Ho.
    - by rewrite (existsSync_created _ _ _ Hm).
    - unfold openclawDir, clawdbotDir. intros [k Hk]. by injection Hk. }
  destruct (existsSync fs ["data"]) eqn:Hd.
  { intros Hm _. by rewrite (existsSync_created _ _ _ Hm). }
  intros Hm [Hhome | ->].
  - assert (existsSync fs' ["data"] = false) as Hd'.
    { rewrite (existsSync_mkdir_frame _ ["data"] _ _ Hm); [done |].
      intros H. by apply Hhome, data_prefix. }
    change openclawDir with (["data"] ++ [".openclaw"]).
    change clawdbotDir with (["data"] ++ [".clawdbot"]).
    by rewrite !(existsSync_below fs' ["data"] _ Hd'), Hd'.
  - change (["data"] ++ [".openclaw"]) with openclawDir in *.
    by rewrite (existsSync_created _ _ _ Hm).
Qed.

Lemma autoDetectStateDir_stable_witness :
  let fs := Dir [("data", Dir [])] in
  let fs' := Dir [("data", Dir [(".openclaw", Dir [])])] in
  mkdir_p (autoDetectStateDir ∅ ["root"] fs) fs = Ok fs' ∧
  autoDetectStateDir ∅ ["root"] fs' = autoDetectStateDir ∅ ["root"] fs.
Proof.
  split; [reflexivity |].
  apply (autoDetectStateDir_stable ∅ ["root"] _ _).
  - reflexivity.
  - left. intros [k Hk]. discriminate Hk.
Defined.

(** The condition on the home directory is needed: with a home directory
    inside [/data] and no [/data] yet, creating the state directory creates
    [/data], and the next start looks elsewhere. *)
Example autoDetectStateDir_home_in_data :
  let home := ["data"; "home"] in
  ∃ fs', mkdir_p (autoDetectStateDir ∅ home (Dir [])) (Dir []) = Ok fs' ∧
         autoDetectStateDir ∅ home (Dir []) = ["data"; "home"; ".openclaw"] ∧
         autoDetectStateDir ∅ home fs' = ["data"; ".openclaw"].
Proof. eexists. split; [reflexivity |]. split; reflexivity. Qed.







(** A config path that is a directory is not removed: the endpoint answers
    500 and changes nothing. *)
Lemma reset_directory env stateDir fs es :
  lookup fs (configPath env stateDir fs) = Some (Dir es) →
  reset env stateDir fs = (500%Z, fs).
Proof. intros H. unfold reset, rmForce. by rewrite H. Qed.

End SettingsFacts.

(** ** Access control *)
Module AuthFacts.
Import Js JsFacts Auth.

(** *** Strings *)

Lemma split_cons_inv sep s a l :
  split sep s = a :: l →
  noChar sep a = true ∧
  ((l = [] ∧ s = a) ∨ ∃ s', s = a +:+ String sep s' ∧ split sep s' = l).
Proof.
  revert a l. induction s as [| c s IH]; intros a l; simpl.
  - intros [= <- <-]. split; [done |]. by left.
  - destruct (Ascii.eqb c sep) eqn:Ec.
    + intros [= <- <-]. split; [done |]. right. exists s.
      apply Ascii.eqb_eq in Ec as ->. done.
    + pose proof (split_nonempty sep s) as Hne.
      destruct (split sep s) as [| w ws] eqn:Es; [done |].
      intros [= <- <-]. destruct (IH w ws eq_refl) as [Hw Hs].
      split; [simpl; by rewrite Ec |].
      destruct Hs as [[-> ->] | [s' [-> Hs']]]; [by left |].
      right. by exists s'.
Qed.

Lemma split_noChar sep a : noChar sep a = true → split sep a = [a].
Proof.
  induction a as [| c a IH]; simpl; [done |].
  intros [Hc Ha]%andb_prop. apply negb_true_iff in Hc. by rewrite Hc, (IH Ha).
Qed.

Lemma split_app sep a s :
  noChar sep a = true → split sep (a +:+ String sep s) = a :: split sep s.
Proof.
  induction a as [| c a IH]; simpl.
  - intros _. by rewrite Ascii.eqb_refl.
  - intros [Hc Ha]%andb_prop. apply negb_true_iff in Hc.
    by rewrite Hc, (IH Ha).
Qed.

Lemma indexOf_lower c s : (-1 ≤ indexOf c s)%Z.
Proof.
  induction s as [| a s IH]; simpl; [lia |].
  destruct (Ascii.eqb a c); [lia |].
  destruct (Z.ltb_spec (indexOf c s) 0); lia.
Qed.

Lemma indexOf_found c s :
  (0 ≤ indexOf c s)%Z →
  ∃ user, noChar c user = true ∧
          s = user +:+ String c (slice (Z.to_nat (indexOf c s + 1)) s).
Proof.
  induction s as [| a s IH]; simpl; [lia |].
  destruct (Ascii.eqb a c) eqn:Ea.
  - intros _. exists "". split; [done |]. apply Ascii.eqb_eq in Ea as ->. done.
  - destruct (Z.ltb_spec (indexOf c s) 0) as [Hneg | Hpos]; [lia |].
    intros _. destruct (IH Hpos) as [user [Hu Hs]].
    exists (String a user). split; [simpl; by rewrite Ea |].
    replace (Z.to_nat (indexOf c s + 1 + 1)) with (S (Z.to_nat (indexOf c s + 1)))
      by lia.
    rewrite append_cons. simpl. f_equal. exact Hs.
Qed.

Lemma indexOf_first c user rest :
  noChar c user = true →
  (0 ≤ indexOf c (user +:+ String c rest))%Z ∧
  slice (Z.to_nat (indexOf c (user +:+ String c rest) + 1))
    (user +:+ String c rest) = rest.
Proof.
  induction user as [| a user IH]; simpl.
  - intros _. by rewrite Ascii.eqb_refl.
  - intros [Ha Hu]%andb_prop. apply negb_true_iff in Ha. rewrite Ha.
    destruct (IH Hu) as [Hpos Hs].
    destruct (Z.ltb_spec (indexOf c (user +:+ String c rest)) 0) as [Hneg | _];
      [lia |].
    split; [lia |].
    replace (Z.to_nat (indexOf c (user +:+ String c rest) + 1 + 1))
      with (S (Z.to_nat (indexOf c (user +:+ String c rest) + 1))) by lia.
    done.
Qed.

Lemma noChar_first c user user' rest rest' :
  noChar c user = true → noChar c user' = true →
  user +:+ String c rest = user' +:+ String c rest' → rest = rest'.
Proof.
  intros Hu Hu' Heq.
  destruct (indexOf_first c user rest Hu) as [_ <-].
  destruct (indexOf_first c user' rest' Hu') as [_ <-].
  by rewrite Heq.
Qed.

Lemma split_basic header enc rest :
  split " " header = "Basic" :: enc :: rest →
  ∃ more, header = "Basic " +:+ enc +:+ more ∧ noChar " " enc = true ∧
          (more = "" ∨ startsWith " " more = true).
Proof.
  intros Es.
  destruct (split_cons_inv _ _ _ _ Es) as [_ [[? _] | [s' [-> Es']]]]; [done |].
  destruct (split_cons_inv _ _ _ _ Es') as [Hnc [[_ ->] | [s'' [-> _]]]].
  - exists "". rewrite append_nil_r. split; [done |]. split; [done |]. by left.
  - exists (String " " s''). split; [done |]. split; [done |]. by right.
Qed.

Lemma split_basicHeader enc more :
  basicHeader enc more →
  ∃ rest, split " " ("Basic " +:+ enc +:+ more) = "Basic" :: enc :: rest.
Proof.
  intros (_ & Hnc & Hmore).
  change ("Basic " +:+ enc +:+ more) with ("Basic" +:+ String " " (enc +:+ more)).
  rewrite split_app by done.
  destruct Hmore as [-> | Hm].
  - rewrite append_nil_r, split_noChar by done. by exists [].
  - destruct more as [| c more]; [done |]. cbn [startsWith] in Hm.
    apply andb_prop in Hm as [Hc _]. apply Ascii.eqb_eq in Hc as <-.
    rewrite split_app by done. by eexists.
Qed.

Lemma header_or header : default "" (or (Some header) (Some "")) = header.
Proof. unfold or. simpl. destruct (String.eqb_spec header ""); by subst. Qed.

(** *** The check of the credentials *)

Section WithDecoder.
Variable base64 : string → string.

Lemma authenticated_carries pw auth :
  truthy pw = true →
  authenticated base64 pw auth = true ↔ carriesPassword base64 pw auth.
Proof.
  intros Hpw. unfold authenticated, carriesPassword. split.
  - destruct auth as [header |].
    2:{ simpl. done. }
    rewrite header_or.
    destruct (split " " header) as [| scheme [| enc rest]] eqn:Es; simpl.
    + done.
    + by rewrite andb_false_r.
    + destruct (bool_decide_reflect (Some scheme = Some "Basic")) as [[= ->] |];
        [| done]. simpl.
      destruct (String.eqb_spec enc "") as [| Henc]; [done |]. simpl.
      intros Hp%bool_decide_eq_true.
      destruct (split_basic _ _ _ Es) as (more & -> & Hnc & Hmore).
      destruct (Z.leb_spec 0 (indexOf ":" (base64 enc))) as [Hidx | Hidx].
      2:{ subst pw. done. }
      destruct (indexOf_found _ _ Hidx) as [user [Hu Hd]].
      exists (slice (Z.to_nat (indexOf ":" (base64 enc) + 1)) (base64 enc)),
        enc, more, user.
      split; [done |]. split; [intros E; rewrite E in Hp; by subst pw |].
      split; [done |]. split; [done |]. split; [done |]. exact Hd.
  - intros (password & enc & more & user & -> & Hne & -> & Hb & Hu & Hd).
    rewrite header_or.
    destruct (split_basicHeader _ _ Hb) as [rest ->]. simpl.
    destruct Hb as (Henc & _ & _).
    destruct (String.eqb_spec enc ""); [done |]. simpl.
    rewrite Hd.
    destruct (indexOf_first ":" user password Hu) as [Hpos Hs].
    change (user +:+ ":" +:+ password) with (user +:+ String ":" password).
    destruct (Z.leb_spec 0 (indexOf ":" (user +:+ String ":" password))); [| lia].
    rewrite Hs. by apply bool_decide_eq_true.
Qed.

Lemma requireSetupAuth_authenticated pw auth :
  truthy pw = true →
  requireSetupAuth base64 pw auth = Next ↔ authenticated base64 pw auth = true.
Proof.
  intros Hpw. unfold requireSetupAuth, authenticated. rewrite Hpw. simpl.
  destruct (bool_decide (_ !! 0%nat = Some "Basic")); simpl; [| done].
  destruct (truthy (_ !! 1%nat)); simpl; [| done].
  by destruct (bool_decide (Some _ = pw)).
Qed.

Lemma carriesPassword_truthy pw auth : carriesPassword base64 pw auth → truthy pw = true.
Proof.
  intros (password & enc & more & user & -> & Hne & _). by apply truthy_Some.
Qed.

(** No public prefix is a prefix of a path of the Control UI. *)
Lemma isPublicRoute_openclaw path :
  startsWith "/openclaw" path = true → isPublicRoute path = false.
Proof.
  destruct path as [| a [| b path]]; cbn [startsWith].
  - done.
  - by rewrite andb_false_r.
  - intros [Ha [Hb _]%andb_prop]%andb_prop.
    apply Ascii.eqb_eq in Ha as <-. apply Ascii.eqb_eq in Hb as <-. reflexivity.
Qed.

Lemma requireControlUiAuth_authenticated pw path auth :
  startsWith "/openclaw" path = true → truthy pw = true →
  requireControlUiAuth base64 pw path auth = Next ↔ authenticated base64 pw auth = true.
Proof.
  intros Hpath Hpw. unfold requireControlUiAuth, authenticated.
  rewrite (isPublicRoute_openclaw _ Hpath), Hpath, Hpw. simpl.
  destruct (bool_decide (_ !! 0%nat = Some "Basic")); simpl; [| done].
  destruct (truthy (_ !! 1%nat)); simpl; [| done].
  by destruct (bool_decide (Some _ = pw)).
Qed.

(** X3: [requireSetupAuth] lets a request through exactly when a password
    is configured and the request carries it: the header reads
    [Basic <encoded>], possibly with more after a further space, and the
    decoded credentials are some text without a colon, a colon, and the
    password.  The text before the colon, the user name, is not looked at,
    and a password may itself contain colons. *)
Theorem requireSetupAuth_passes_iff pw auth :
  requireSetupAuth base64 pw auth = Next ↔ carriesPassword base64 pw auth.
Proof.
  destruct (truthy pw) eqn:Hpw.
  - by rewrite requireSetupAuth_authenticated, authenticated_carries.
  - split.
    + unfold requireSetupAuth. by rewrite Hpw.
    + intros H%carriesPassword_truthy. congruence.
Qed.

(** X4: a request for a path below [/openclaw] gets past
    [requireControlUiAuth], to the redirect or to the proxy, exactly when it
    carries the configured password; without a configured password none
    does. *)
Theorem controlUi_requires_password pw cfg path auth ens :
  startsWith "/openclaw" path = true →
  (∃ r, throughProxy base64 pw cfg path auth ens = inr r) ↔
  carriesPassword base64 pw auth.
Proof.
  intros Hpath. unfold throughProxy.
  destruct (truthy pw) eqn:Hpw.
  - rewrite <- authenticated_carries by done.
    rewrite <- (requireControlUiAuth_authenticated pw path auth Hpath Hpw).
    destruct (requireControlUiAuth base64 pw path auth); split.
    + done.
    + intros _. by eexists.
    + by intros [r Hr].
    + done.
  - split.
    + unfold requireControlUiAuth.
      rewrite (isPublicRoute_openclaw _ Hpath), Hpath, Hpw. simpl. by intros [r Hr].
    + intros H%carriesPassword_truthy. congruence.
Qed.


(** X6: with no password configured the two differ.  The HTTP middleware
    answers every request for a path below [/openclaw] with status 500,
    while the upgrade handler asks no upgrade request for credentials:
    whatever the path and the header, the socket is proxied to the gateway
    as soon as the gateway runs. *)
Theorem upgrade_open_without_password pw path auth ens :
  truthy pw = false →
  upgrade base64 true pw path auth ens =
    match ens with
    | Supervisor.RejectedWith _ => Destroyed
    | _ => ProxiedWs
    end ∧
  (startsWith "/openclaw" path = true →
   ∃ body, requireControlUiAuth base64 pw path auth = Respond 500 body None).
Proof.
  intros Hpw. split.
  - unfold upgrade. rewrite Hpw, andb_false_r. done.
  - intros Hpath. unfold requireControlUiAuth.
    rewrite (isPublicRoute_openclaw _ Hpath), Hpath, Hpw. simpl. by eexists.
Qed.

End WithDecoder.

Example decodeBase64_example : decodeBase64 "dXNlcjpzZTpjcmV0" = "user:se:cret".
Proof. reflexivity. Qed.

Lemma requireSetupAuth_passes_iff_witness :
  requireSetupAuth decodeBase64 (Some "se:cret") (Some "Basic dXNlcjpzZTpjcmV0") = Next ∧
  (requireSetupAuth decodeBase64 (Some "se:cret") (Some "Basic dXNlcjpzZTpjcmV0") = Next ↔
   carriesPassword decodeBase64 (Some "se:cret") (Some "Basic dXNlcjpzZTpjcmV0")).
Proof.
  split; [reflexivity |].
  apply (requireSetupAuth_passes_iff decodeBase64).
Defined.

Lemma controlUi_requires_password_witness :
  startsWith "/openclaw" "/openclaw/chat" = true ∧
  ((∃ r, throughProxy decodeBase64 (Some "se:cret") true "/openclaw/chat"
           (Some "Basic dXNlcjpzZTpjcmV0") Supervisor.ResolvedOk = inr r) ↔
   carriesPassword decodeBase64 (Some "se:cret") (Some "Basic dXNlcjpzZTpjcmV0")).
Proof.
  split; [reflexivity |].
  apply (controlUi_requires_password decodeBase64). reflexivity.
Defined.


Lemma upgrade_open_without_password_witness :
  truthy None = false ∧
  upgrade decodeBase64 true None "/openclaw/ws" None Supervisor.ResolvedOk = ProxiedWs ∧
  (startsWith "/openclaw" "/openclaw/ws" = true →
   ∃ body, requireControlUiAuth decodeBase64 None "/openclaw/ws" None
           = Respond 500 body None).
Proof.
  split; [reflexivity |].
  apply (upgrade_open_without_password decodeBase64 None "/openclaw/ws" None
           Supervisor.ResolvedOk).
  reflexivity.
Defined.

End AuthFacts.

(** ** Lifetime of the gateway process *)
Module LifetimeFacts.
Import Supervisor Lifetime.

Lemma spawn_budget_step s ev :
  (spawned (step s ev) + handleFree (step s ev)
   ≤ spawned s + handleFree s + (if clearsHandle ev then 1 else 0))%nat.
Proof.
  unfold handleFree.
  destruct ev; simpl; unfold ensureGatewayRunning, startGateway;
    repeat case_match; simpl in *; try lia; simplify_eq; simpl in *; try lia.
Qed.

(** X7: the wrapper spawns a gateway only while it holds no handle.  Over
    any run, the spawns are at most as many as the events that emptied the
    handle (an ['error'] or ['exit'] of a child, a restart, an import), plus
    one if the handle was empty at the start. *)
Theorem spawn_budget s evs :
  (spawned (run s evs) + handleFree (run s evs)
   ≤ spawned s + handleFree s + length (List.filter clearsHandle evs))%nat.
Proof.
  revert s. induction evs as [| ev evs IH]; intros s; simpl; [lia |].
  specialize (IH (step s ev)). pose proof (spawn_budget_step s ev) as Hstep.
  unfold run in *. simpl. destruct (clearsHandle ev); simpl; lia.
Qed.

(** X8: the handlers of ['exit'] and ['error'] empty the handle without
    looking at which child they belong to.  When an earlier child [p] is
    reported gone while the handle holds a later child [h], the next call
    spawns one more gateway, although [h] was never reported gone. *)
Theorem stale_exit_respawns s p h c :
  configured s = true → dirsCreatable s = true →
  gatewayProc s = Some h → gatewayStarting s = None →
  (p < spawned s)%nat → p ≠ h →
  gatewayProc (run s [ProcessGone p; Call c]) = Some (spawned s) ∧
  spawned (run s [ProcessGone p; Call c]) = S (spawned s) ∧
  ¬ In (ProcessGone h) [ProcessGone p; Call c].
Proof.
  intros Hc Hd Hh Hs Hp Hne. simpl.
  apply Nat.ltb_lt in Hp. rewrite Hp.
  unfold ensureGatewayRunning, startGateway. simpl. rewrite Hc, Hd, Hs. simpl.
  split; [done |]. split; [done |].
  intros [[= ->] | [[=] | []]]. done.
Qed.

Lemma stale_exit_respawns_witness :
  let s := run (initial true true)
             [Call 0; StartAwaited 0; ProbeDone 0 true; FinallyRuns 0; Resume 0;
              HandleCleared; Call 1; StartAwaited 1; ProbeDone 1 true;
              FinallyRuns 1; Resume 1] in
  gatewayProc s = Some 1 ∧
  gatewayProc (run s [ProcessGone 0; Call 2]) = Some (spawned s) ∧
  spawned (run s [ProcessGone 0; Call 2]) = S (spawned s) ∧
  ¬ In (ProcessGone 1) [ProcessGone 0; Call 2].
Proof.
  split; [reflexivity |].
  apply (stale_exit_respawns _ 0 1 2); try reflexivity.
  - vm_compute. lia.
  - lia.
Defined.

End LifetimeFacts.

(** ** Cost of the readiness prober *)
Module ProberCostFacts.
Import Prober ProberCost.

Lemma polls_app a b : polls (a ++ b) = (polls a + polls b)%nat.
Proof. unfold polls. by rewrite List.filter_app, length_app. Qed.

Section Bounded.
Variable env : Env.
Variables F L : Z.
Hypothesis fetch_bound : ∀ t, (fetchTime env t ≤ F)%Z.
Hypothesis lag_bound : ∀ t, (timerLag env t ≤ L)%Z.
Hypothesis F_nonneg : (0 ≤ F)%Z.
Hypothesis L_nonneg : (0 ≤ L)%Z.

Lemma loop_cost timeoutMs start : ∀ fuel now acc r,
  loop env timeoutMs start fuel now acc = Some r →
  ∃ new, actions r = acc ++ new ∧
         (polls new = 0%nat ∨
          (250 * (Z.of_nat (polls new) - 1) < start + timeoutMs - now)%Z) ∧
         (clock r ≤ Z.max now (start + timeoutMs + 249 + F + L))%Z.
Proof.
  induction fuel as [| fuel IH]; intros now acc r; [done |].
  cbn [loop]. destruct (Z.ltb_spec (now - start) timeoutMs) as [Hlt | Hge].
  - pose proof (fetch_bound now) as HF.
    destruct (fetchAt env now) as [st | e].
    + intros [= <-]. exists [Fetch now]. simpl.
      split; [done |]. split; [right; unfold polls; simpl; lia | lia].
    + set (now1 := (now + Z.max 0 (fetchTime env now))%Z).
      pose proof (lag_bound now1) as HL.
      set (now2 := (now1 + 250 + Z.max 0 (timerLag env now1))%Z).
      intros Hr. destruct (IH _ _ _ Hr) as (new & Ha & Hp & Hc).
      exists (Fetch now :: Sleep 250 :: new).
      split; [by rewrite Ha, <- !app_assoc |].
      split.
      * right. change (Fetch now :: Sleep 250 :: new)
          with ([Fetch now; Sleep 250] ++ new).
        rewrite polls_app. change (polls [Fetch now; Sleep 250]) with 1%nat.
        destruct Hp as [-> | Hp]; subst now1 now2; lia.
      * subst now1 now2. lia.
  - intros [= <-]. exists []. simpl. rewrite app_nil_r.
    split; [done |]. split; [by left | lia].
Qed.

(** X9: what a wait costs.  When every poll settles within [F] ms and
    every timer fires at most [L] ms late, [waitForGatewayReady] returns at
    most [249 + F + L] ms after its timeout, and it makes at most one poll
    per 250 ms of the timeout: with [n] polls made, [250 * (n - 1)] is less
    than the timeout.  With a timeout of zero or less it makes none. *)
Theorem waitForGatewayReady_cost (timeoutMsOpt : option Z) (start : Z) :
  let timeoutMs := match timeoutMsOpt with Some t => t | None => 20000%Z end in
  ∃ r, waitForGatewayReady env timeoutMsOpt start = Some r ∧
       (polls (actions r) = 0%nat ∨
        (250 * (Z.of_nat (polls (actions r)) - 1) < timeoutMs)%Z) ∧
       (clock r - start ≤ Z.max 0 (timeoutMs + 249 + F + L))%Z.
Proof.
  intros timeoutMs. unfold waitForGatewayReady. fold timeoutMs.
  destruct (ProberFacts.loop_returns env timeoutMs start
              (Z.to_nat (timeoutMs / 250 + 1)) start []) as (r & Hr & _).
  { pose proof (ProberFacts.enoughFuel_enough timeoutMs). lia. }
  exists r. split; [exact Hr |].
  destruct (loop_cost _ _ _ _ _ _ Hr) as (new & Ha & Hp & Hc).
  simpl in Ha. rewrite Ha. split; [| lia].
  destruct Hp as [Hp | Hp]; [by left | right; lia].
Qed.

End Bounded.

Lemma waitForGatewayReady_cost_witness :
  ∃ r, waitForGatewayReady env_late None 0 = Some r ∧
       (polls (actions r) = 0%nat ∨
        (250 * (Z.of_nat (polls (actions r)) - 1) < 20000)%Z) ∧
       (clock r - 0 ≤ Z.max 0 (20000 + 249 + 10 + 0))%Z.
Proof.
  apply (waitForGatewayReady_cost env_late 10 0).
  - intros t. simpl. lia.
  - intros t. simpl. lia.
  - lia.
  - lia.
Defined.

End ProberCostFacts.

(** ** Shape of the gateway token *)
Module TokenShapeFacts.
Import Js JsFacts Fs Token.

Lemma trimEnd_cons c s :
  trimEnd (String c s) =
    match trimEnd s with
    | EmptyString => if isWhiteSpace c then EmptyString else String c EmptyString
    | t => String c t
    end.
Proof. reflexivity. Qed.

Lemma trimEnd_idem s : trimEnd (trimEnd s) = trimEnd s.
Proof.
  induction s as [| c s IH]; [done |]. rewrite trimEnd_cons.
  destruct (trimEnd s) as [| d t] eqn:Et.
  - destruct (isWhiteSpace c) eqn:Ec; [done |]. rewrite trimEnd_cons. simpl.
    by rewrite Ec.
  - rewrite trimEnd_cons. by rewrite IH.
Qed.

Lemma trimEnd_head c s :
  isWhiteSpace c = false → ∃ t, trimEnd (String c s) = String c t.
Proof.
  intros Hc. cbn [trimEnd]. destruct (trimEnd s); [rewrite Hc |]; by eexists.
Qed.

Lemma trimStart_head s :
  trimStart s = "" ∨ ∃ c t, trimStart s = String c t ∧ isWhiteSpace c = false.
Proof.
  induction s as [| c s IH]; [by left |]. cbn [trimStart].
  destruct (isWhiteSpace c) eqn:Ec; [done |]. right. by exists c, s.
Qed.

(** [trim] gives a string that [trim] leaves as it is. *)
Lemma trim_idem s : trim (trim s) = trim s.
Proof.
  unfold trim. destruct (trimStart_head s) as [-> | (c & t & -> & Hc)]; [done |].
  destruct (trimEnd_head c t Hc) as [t' Ht']. rewrite Ht'.
  cbn [trimStart]. rewrite Hc, <- Ht'. apply trimEnd_idem.
Qed.

Lemma envTrim_trimmed env name s : envTrim env name = Some s → trim s = s.
Proof.
  unfold envTrim. destruct (env !! name) as [v |]; [| done].
  intros [= <-]. apply trim_idem.
Qed.

Lemma or_trimmed (a b : option string) s :
  (∀ x, a = Some x → trim x = x) → (∀ x, b = Some x → trim x = x) →
  or a b = Some s → trim s = s.
Proof. intros Ha Hb. unfold or. destruct (truthy a); eauto. Qed.

Lemma toHex_nonempty bs : bs ≠ [] → toHex bs ≠ "".
Proof. by destruct bs. Qed.

(** X10: the gateway token is never empty and has no white space around
    it, wherever it comes from: the environment, the token file or the
    random bytes (of which there is at least one; the code asks for 32). *)
Theorem resolveGatewayToken_shape env stateDir rnd fs :
  rnd ≠ [] →
  (resolveGatewayToken env stateDir rnd fs).1 ≠ "" ∧
  trim (resolveGatewayToken env stateDir rnd fs).1
  = (resolveGatewayToken env stateDir rnd fs).1.
Proof.
  intros Hrnd. unfold resolveGatewayToken.
  destruct (truthy (envTok env)) eqn:He.
  - destruct (envTok env) as [t |] eqn:Et; [| done]. simpl.
    split; [by apply truthy_Some |].
    unfold envTok in Et.
    eapply or_trimmed; [| | exact Et].
    + intros x Hx. eapply or_trimmed; [| | exact Hx]; apply envTrim_trimmed.
    + apply envTrim_trimmed.
  - destruct (readFileSync fs (tokenPath stateDir)) as [c | e]; simpl.
    + destruct (String.eqb_spec (trim c) ""); simpl.
      * split; [by apply toHex_nonempty | apply trim_toHex].
      * split; [done | apply trim_idem].
    + split; [by apply toHex_nonempty | apply trim_toHex].
Qed.

Lemma resolveGatewayToken_shape_witness :
  let fs := Dir [("data", Dir [(".openclaw", Dir [("gateway.token", File "  s3cr3t
" 384)])])] in
  (resolveGatewayToken ∅ ["data"; ".openclaw"] [Byte.x01] fs).1 = "s3cr3t" ∧
  (resolveGatewayToken ∅ ["data"; ".openclaw"] [Byte.x01] fs).1 ≠ "" ∧
  trim (resolveGatewayToken ∅ ["data"; ".openclaw"] [Byte.x01] fs).1
  = (resolveGatewayToken ∅ ["data"; ".openclaw"] [Byte.x01] fs).1.
Proof.
  split; [reflexivity |].
  apply (resolveGatewayToken_shape ∅ ["data"; ".openclaw"] [Byte.x01]).
  discriminate.
Defined.

End TokenShapeFacts.

(** ** State archive manager: what an import leaves behind *)
Module ImportFacts.
Import Js Fs FsFacts Archive ArchiveFacts.

Section WithTar.
Variable untar : string → option (list TarEntry).

Lemma stagingDir_nonempty cfg d : stagingDir cfg d ≠ [].
Proof. unfold stagingDir. by destruct (tmpdir cfg). Qed.

Lemma cleanup_removes cfg d w r w' :
  cleanup cfg d w = (r, w') → lookup (fs w') (stagingDir cfg d) = None.
Proof.
  unfold cleanup, ignoreErrors, liftFs. intros [= _ <-]. simpl.
  rewrite <- (app_nil_r (stagingDir cfg d)) at 2.
  apply rmSync_gone, stagingDir_nonempty.
Qed.

Lemma tryFinally_inv {A} (body : M A) (cl : M unit) w r w' :
  tryFinally body cl w = (r, w') →
  ∃ r1 w1 rc, body w = (r1, w1) ∧ cl w1 = (rc, w').
Proof.
  unfold tryFinally. destruct (body w) as [r1 w1].
  destruct (cl w1) as [[[] | e] w2] eqn:Ec; intros [= _ <-]; eauto.
Qed.

Lemma importBody_no_staging cfg d u w r w' :
  importBody untar cfg d u w = (r, w') →
  existsSync (fs w) (stagingDir cfg d) = false →
  existsSync (fs w') (stagingDir cfg d) = false.
Proof.
  intros H Hnone. unfold importBody in H.
  apply bind_inv in H as [([] & wa & Ha & H) | (e & Ha & _)].
  - apply tryFinally_inv in H as (r1 & w1 & rc & _ & Hc).
    unfold existsSync. by rewrite (cleanup_removes _ _ _ _ _ Hc).
  - unfold liftFs in Ha. destruct (mkdir_p _ (fs w)); [done |].
    by injection Ha as _ <-.
Qed.

(** X11: an import leaves no staging directory behind.  If the staging
    path did not exist before the request, it does not exist after it,
    whatever was uploaded and however the import ended. *)
Theorem import_leaves_no_staging cfg d file w :
  existsSync (fs w) (stagingDir cfg d) = false →
  existsSync (fs (importHandler untar cfg d file w).2) (stagingDir cfg d) = false.
Proof.
  intros Hnone. unfold importHandler. destruct file as [u |]; [| done].
  destruct (importBody untar cfg d u w) as [r w'] eqn:Hb.
  pose proof (importBody_no_staging _ _ _ _ _ _ Hb Hnone). by destruct r.
Qed.

(** X12: the filter looks for two dots in a row anywhere in the path of an
    entry.  Such an entry, also one whose file name merely contains them
    (as in [notes..txt]), is skipped without an error: the extraction does
    what it does on the archive without those entries. *)
Theorem extraction_skips_dotdot cwd entries w :
  extractAll cwd entries w
  = extractAll cwd
      (List.filter (fun e => negb (includes ".." (entryPath e))) entries) w.
Proof.
  revert w. induction entries as [| e entries IH]; intros w; [done |].
  cbn [extractAll List.filter].
  destruct (includes ".." (entryPath e)) eqn:Ei; simpl.
  - unfold bind at 1, extractEntry, filter. rewrite Ei. simpl. apply IH.
  - unfold bind. destruct (extractEntry cwd e w) as [[[] | err] w1]; [apply IH | done].
Qed.

Example extraction_skips_dotdot_example :
  filter "workspace/notes..txt" = false ∧
  ∀ w, extractEntry ["x"]
         {| entryPath := "workspace/notes..txt"; entryBody := Some "text";
            entryMode := 420 |} w = (Ok tt, w).
Proof. split; reflexivity. Qed.

End WithTar.

Lemma import_leaves_no_staging_witness :
  existsSync (fs world_sample) (stagingDir cfg_sample draw_sample) = false ∧
  existsSync
    (fs (importHandler untar_sample cfg_sample draw_sample (Some upload_good)
           world_sample).2)
    (stagingDir cfg_sample draw_sample) = false.
Proof.
  split; [reflexivity |].
  apply (import_leaves_no_staging untar_sample). reflexivity.
Defined.

End ImportFacts.

(** ** State archive manager: what a successful import installs *)
Module RestoreFacts.
Import Js Fs FsFacts Archive ArchiveFacts Restore.














(** *** The steps of the handler *)





(** How the directories lie: the state directory is not the root and the
    staging directory is beside it; the workspace is either the directory
    [workspace] of the state directory, or it lies, with its backup path and
    the staging directory, beside the state directory. *)
Section Layout.
Variables (cfg : Config) (d : Draw).
Hypothesis state_nonempty : STATE_DIR cfg ≠ [].
Hypothesis staging_state : incomparable (stagingDir cfg d) (STATE_DIR cfg).
Hypothesis workspace_place :
  WORKSPACE_DIR cfg = STATE_DIR cfg ++ ["workspace"] ∨
  (WORKSPACE_DIR cfg ≠ [] ∧
   incomparable (STATE_DIR cfg) (WORKSPACE_DIR cfg) ∧
   incomparable (STATE_DIR cfg) (workspaceBackupPath cfg d) ∧
   incomparable (stagingDir cfg d) (WORKSPACE_DIR cfg) ∧
   incomparable (stagingDir cfg d) (workspaceBackupPath cfg d)).
Hypothesis staging_backup : incomparable (stagingDir cfg d) (stateBackupPath cfg d).

Local Abbreviation S := (STATE_DIR cfg).
Local Abbreviation W := (WORKSPACE_DIR cfg).
Local Abbreviation nested := (bool_decide (W = S ++ ["workspace"])).





End Layout.



Section WithTar.
Variable untar : string → option (list TarEntry).


End WithTar.


End RestoreFacts.

(** ** Archives of trees *)
Module TarballFacts.
Import Js JsFacts Fs FsFacts Archive ArchiveFacts Restore RestoreFacts Tarball.
Import Auth AuthFacts.

(** *** Paths as strings *)










(** *** Writing below an existing directory *)








(** *** Extracting the archive of a tree *)







End TarballFacts.
